(** * gomatrix: the default syncer (sync.go)

    A shallow embedding of [DefaultSyncer] and of the functions of sync.go
    that reduce one /sync response: [shouldProcessResponse],
    [getOrCreateRoom], [notifyListeners], [ProcessResponse] and
    [OnFailedSync]; and of the two in-memory stores.

    Conventions of the embedding.
    - A Go [map[string]T] is a [gmap string T]; reading a missing key gives
      [None] (Go's zero value with [ok = false]), [delete] is [delete].
    - [for k, v := range m] visits the keys of [m] in an order the Go
      runtime chooses.  Each of the three range loops over a map takes the
      order as an explicit list of keys (a [Schedule]); [range_order] says
      when such a list is an order the runtime can produce.  A key whose
      entry is gone when its turn comes is not visited, as in Go.
    - A pointer argument that the callee writes through ([res *RespSync]) is
      modelled by returning the value the pointee has when the call ends.
      [nil] is [None].
    - A Go call either returns or panics: [go_result].  Code running on the
      syncer is a state transformer over a [Machine] ([Go]).
    - Listeners are Go closures.  A listener acts on a world [W] that the
      syncer does not look at, and may panic; it is taken not to write to
      the event it is handed nor to the syncer.  Every invocation is
      recorded in the machine's [calls], which no function of the program
      reads.
    - The event variable of a [for _, event := range ...] loop is one Go
      variable for the whole loop (the language before Go 1.22), and the loops of [ProcessResponse] hand
      its address [&event] to [UpdateState], which files the address.  The
      machine therefore has a heap of event variables ([heap]); a room's
      state maps a pair to an address, and what the state holds for a pair
      is what the address reads ([stateOf]).  A listener is handed what the
      variable holds when it is called. *)

From stdpp Require Import base option list gmap strings infinite.
From Stdlib Require Import ZArith.

Local Open Scope string_scope.
Local Open Scope list_scope.
#[local] Set Warnings "-register-all".

(** ** Data model *)

(** A decoded JSON value held in a Go [interface{}].  Only the dynamic type
    matters to sync.go (the assertion [m.(string)]). *)
Inductive value : Type :=
| VNil
| VBool (b : bool)
| VNumber (n : Z)
| VString (s : string)
| VArray (l : list value)
| VObject (l : list (string * value)).

(** Modelled from the spec: the declaration of [Event] is not in sync.go.
    The fields are those sync.go reads or writes ([Type], [StateKey],
    [RoomID], [Content]) and the sender; [StateKey] is compared with the
    string [s.UserID], so it is a string. *)
Record Event : Type := mkEvent {
  Type_ : string;
  StateKey : string;
  RoomID : string;
  Sender : string;
  Content : gmap string value
}.

(** [event.RoomID = roomID] on the loop's copy of the event. *)
Definition setRoomID (roomID : string) (event : Event) : Event :=
  {| Type_ := Type_ event; StateKey := StateKey event; RoomID := roomID;
     Sender := Sender event; Content := Content event |}.

(** Modelled from the spec: the declaration of [RespSync] is not in sync.go.
    [Rooms.Join] maps a room to its state and timeline event lists,
    [Rooms.Invite] maps a room to its (stripped) state event list. *)
Record JoinedRoom : Type := mkJoinedRoom {
  StateEvents : list Event;
  TimelineEvents : list Event
}.

Record InvitedRoom : Type := mkInvitedRoom {
  InviteStateEvents : list Event
}.

Record RespSync : Type := mkRespSync {
  Join : gmap string JoinedRoom;
  Invite : gmap string InvitedRoom
}.

(** The address of an event variable on the heap: a Go [*Event]. *)
Definition addr : Type := nat.

(** Modelled from the spec: [Room], [NewRoom] and [UpdateState] are not in
    sync.go.  A room holds, for each (type, state-key) pair, the event
    filed last under the pair.  [UpdateState] is handed a [*Event] (lines
    65 and 77 pass [&event]), so what a room holds for a pair is that
    pointer. *)
Record Room : Type := mkRoom {
  ID : string;
  State : gmap (string * string) addr
}.

(** Modelled from the spec: [NewRoom] makes a room with no state. *)
Definition NewRoom (roomID : string) : Room :=
  {| ID := roomID; State := ∅ |}.

(** Modelled from the spec: [UpdateState] merges one state event, replacing
    any earlier entry with the same (type, state-key).  [event] is the
    pointer it is handed and [pointee] the event the pointer reads when it
    is called: the pointer is filed under the pair of the pointee. *)
Definition UpdateState (room : Room) (event : addr) (pointee : Event) : Room :=
  {| ID := ID room;
     State := <[(Type_ pointee, StateKey pointee) := event]> (State room) |}.

(** The zero value of [Event], which a declared variable holds. *)
Definition zeroEvent : Event := mkEvent "" "" "" "" ∅.

(** The addresses the rooms of a table hold in their states. *)
Definition tablePointers (rooms : gmap string Room) : list addr :=
  room ← (map_to_list rooms).*2; (map_to_list (State room)).*2.

(** A Go [error] is its message; [nil] is [None]. *)
Definition error : Type := string.

(** The outcome of a Go call: it returns, or it panics with a value (here
    the text that [%s] prints for it). *)
Inductive go_result (A : Type) : Type :=
| Returned (a : A)
| Panicked (r : string).
Arguments Returned {A} a.
Arguments Panicked {A} r.

(** The runtime errors sync.go can raise. *)
Definition nilDereference : string :=
  "runtime error: invalid memory address or nil pointer dereference".
Definition nilMapAssignment : string :=
  "assignment to entry in nil map".

(** [time.Duration] is an int64 count of nanoseconds. *)
Definition Duration : Type := Z.
Definition Nanosecond : Duration := 1%Z.
Definition Second : Duration := (1000000000 * Nanosecond)%Z.

(** The iteration orders of the three range loops over maps. *)
Record Schedule : Type := mkSchedule {
  scanOrder : list string;
  joinOrder : list string;
  inviteOrder : list string
}.

(** [ks] is an order in which [range m] can produce the keys of [m]. *)
Definition range_order {A : Type} (m : gmap string A) (ks : list string) : Prop :=
  ks ≡ₚ (map_to_list m).*1.

Section Syncer.

Variable W : Type.

(** [OnEventListener]: a function that is given (a pointer to) an event. *)
Definition OnEventListener : Type := Event → W → go_result unit * W.

(** [DefaultSyncer].  The two maps are [None] when nil (a syncer built as
    a struct literal); [NewDefaultSyncer] makes both.  [listenersMap] is the
    field [listeners].  The two stores are not used by the functions
    below. *)
Record DefaultSyncer : Type := mkDefaultSyncer {
  UserID : string;
  Rooms : option (gmap string Room);
  listenersMap : option (gmap string (list OnEventListener))
}.

(** Reading [s.listeners]: a nil map reads as a map without entries. *)
Definition listeners (s : DefaultSyncer)
    : gmap string (list OnEventListener) :=
  match listenersMap s with
  | Some ls => ls
  | None => ∅
  end.

Definition NewDefaultSyncer (userID : string) : DefaultSyncer :=
  {| UserID := userID; Rooms := Some ∅; listenersMap := Some ∅ |}.

(** [OnEventType]: the outcome and the syncer as it is left.  The read of
    line 87 is that of a missing key when the map is nil; the write of line
    89 then panics. *)
Definition OnEventType (eventType : string) (callback : OnEventListener)
    (s : DefaultSyncer) : go_result unit * DefaultSyncer :=
  match listenersMap s with
  | None => (Panicked nilMapAssignment, s)
  | Some ls =>
    let ls1 := match ls !! eventType with
               | Some _ => ls
               | None => <[eventType := []]> ls
               end in
    let fns := match ls1 !! eventType with
               | Some fns => fns
               | None => []
               end in
    (Returned tt,
     {| UserID := UserID s; Rooms := Rooms s;
        listenersMap := Some (<[eventType := fns ++ [callback]]> ls1) |})
  end.

(** The room of the table with the given identifier, if any. *)
Definition lookupRoom (s : DefaultSyncer) (roomID : string) : option Room :=
  match Rooms s with
  | Some rooms => rooms !! roomID
  | None => None
  end.

(** *** shouldProcessResponse *)

(** The test of line 110. *)
Definition isSelfMember (userID : string) (e : Event) : bool :=
  String.eqb (Type_ e) "m.room.member" && String.eqb (StateKey e) userID.

(** Lines 121-122: the room leaves both maps of the response. *)
Definition removeRoom (roomID : string) (resp : RespSync) : RespSync :=
  {| Join := delete roomID (Join resp);
     Invite := delete roomID (Invite resp) |}.

(** The inner loop of [shouldProcessResponse] (lines 108-126), entered with
    [n = i + 1]: it looks at [events[n-1]], ..., [events[0]] in that
    order. *)
Fixpoint scanTimeline (userID roomID : string) (events : list Event)
    (n : nat) (resp : RespSync) : RespSync :=
  match n with
  | O => resp
  | S i =>
    match events !! i with
    | None => scanTimeline userID roomID events i resp
    | Some e =>
      if isSelfMember userID e then
        match Content e !! "membership" with
        | Some (VString mship) =>
          if String.eqb mship "join" then
            match Join resp !! roomID with
            | None => scanTimeline userID roomID events i resp
            | Some _ => removeRoom roomID resp
            end
          else scanTimeline userID roomID events i resp
        | _ => scanTimeline userID roomID events i resp
        end
      else scanTimeline userID roomID events i resp
    end
  end.

(** One turn of the outer loop (line 107). *)
Definition scanRoom (userID : string) (resp : RespSync) (roomID : string)
    : RespSync :=
  match Join resp !! roomID with
  | None => resp
  | Some roomData =>
    scanTimeline userID roomID (TimelineEvents roomData)
      (length (TimelineEvents roomData)) resp
  end.

(** [shouldProcessResponse]: the answer and the response as it is left. *)
Definition shouldProcessResponse (s : DefaultSyncer) (order : list string)
    (resp : option RespSync) (since : string)
    : go_result bool * option RespSync :=
  if String.eqb since "" then (Returned false, resp)
  else
    match resp with
    | None => (Panicked nilDereference, None)
    | Some r => (Returned true, Some (foldl (scanRoom (UserID s)) r order))
    end.

(** *** The machine the syncer runs on *)

(** The syncer, the heap of event variables, the world of the listeners,
    and the listener invocations made so far, oldest first. *)
Record Machine : Type := mkMachine {
  syncer : DefaultSyncer;
  heap : gmap addr Event;
  world : W;
  calls : list (OnEventListener * Event)
}.

Definition Go (A : Type) : Type := Machine → go_result A * Machine.

#[global] Instance Go_ret : MRet Go := λ A a m, (Returned a, m).

#[global] Instance Go_bind : MBind Go := λ A B k c m,
  match c m with
  | (Returned a, m') => k a m'
  | (Panicked r, m') => (Panicked r, m')
  end.

Definition panic {A : Type} (r : string) : Go A := λ m, (Panicked r, m).

(** [for _, x := range l { body }] over a slice. *)
Fixpoint forEach {A : Type} (l : list A) (body : A → Go unit) : Go unit :=
  match l with
  | [] => mret tt
  | x :: l' => body x ;; forEach l' body
  end.

(** [for k, v := range m { body }] over a map, in the order [order]. *)
Definition forRange {A : Type} (m : gmap string A) (order : list string)
    (body : string → A → Go unit) : Go unit :=
  forEach order (λ k,
    match m !! k with
    | Some v => body k v
    | None => mret tt
    end).

Definition setRooms (rooms : gmap string Room) (m : Machine) : Machine :=
  {| syncer := {| UserID := UserID (syncer m); Rooms := Some rooms;
                  listenersMap := listenersMap (syncer m) |};
     heap := heap m; world := world m; calls := calls m |}.

(** *** Event variables *)

(** The addresses in use: those of the variables of the heap and those the
    table holds. *)
Definition addressesInUse (m : Machine) : list addr :=
  (map_to_list (heap m)).*1 ++
  match Rooms (syncer m) with
  | Some rooms => tablePointers rooms
  | None => []
  end.

(** [var event Event]: a new variable, at an address not in use, holding
    the zero value.  The result is its address. *)
Definition newVar : Go addr := λ m,
  let event := fresh (addressesInUse m) in
  (Returned event,
   {| syncer := syncer m; heap := <[event := zeroEvent]> (heap m);
      world := world m; calls := calls m |}).

(** [*event = e]. *)
Definition assign (event : addr) (e : Event) : Go unit := λ m,
  (Returned tt,
   {| syncer := syncer m; heap := <[event := e]> (heap m);
      world := world m; calls := calls m |}).

(** [*event]. *)
Definition deref (event : addr) : Go Event := λ m,
  match heap m !! event with
  | Some e => (Returned e, m)
  | None => (Panicked nilDereference, m)
  end.

(** [event.RoomID = roomID]. *)
Definition assignRoomID (event : addr) (roomID : string) : Go unit :=
  e ← deref event;
  assign event (setRoomID roomID e).

(** [for _, event := range events { body }] over a slice of events, where
    the body takes the address of [event]: one variable is declared for the
    loop and each element is copied into it in turn. *)
Definition forRangeEvents (events : list Event) (body : addr → Go unit)
    : Go unit :=
  event ← newVar;
  forEach events (λ e, assign event e;; body event).

(** A [*Room] handed out by the table is represented by the key of the
    room in the table. *)
Definition RoomPtr : Type := string.

(** *** getOrCreateRoom *)

Definition getOrCreateRoom (roomID : string) : Go RoomPtr := λ m,
  match lookupRoom (syncer m) roomID with
  | Some _ => (Returned roomID, m)
  | None =>
    match Rooms (syncer m) with
    | Some rooms => (Returned roomID, setRooms (<[roomID := NewRoom roomID]> rooms) m)
    | None => (Panicked nilMapAssignment, m)
    end
  end.

(** The room behind a room pointer becomes [UpdateState] of it. *)
Definition updateRoom (room : RoomPtr) (event : addr) (pointee : Event)
    : Go unit := λ m,
  match Rooms (syncer m) with
  | Some rooms =>
    (Returned tt,
     setRooms (alter (λ r, UpdateState r event pointee) room rooms) m)
  | None => (Returned tt, m)
  end.

(** [room.UpdateState(event)] with [event] a [*Event]: the type and the
    state key are read through the pointer. *)
Definition updateStateAt (room : RoomPtr) (event : addr) : Go unit :=
  pointee ← deref event;
  updateRoom room event pointee.

(** *** notifyListeners *)

(** [fn(event)]: the listener runs on the world; the call is recorded. *)
Definition invoke (fn : OnEventListener) (event : Event) : Go unit := λ m,
  let '(r, w) := fn event (world m) in
  (r, {| syncer := syncer m; heap := heap m; world := w;
         calls := calls m ++ [(fn, event)] |}).

Definition notifyListeners (event : Event) : Go unit := λ m,
  match listeners (syncer m) !! Type_ event with
  | None => (Returned tt, m)
  | Some fns => forEach fns (λ fn, invoke fn event) m
  end.

(** [s.notifyListeners(event)] with [event] a [*Event]: the listeners are
    handed what the pointer reads. *)
Definition notifyListenersAt (event : addr) : Go unit :=
  pointee ← deref event;
  notifyListeners pointee.

(** *** ProcessResponse *)

(** The loop of lines 61-72; [event] is [&event]. *)
Definition processJoin (order : list string) (res : RespSync) : Go unit :=
  forRange (Join res) order (λ roomID roomData,
    room ← getOrCreateRoom roomID;
    forRangeEvents (StateEvents roomData) (λ event,
      assignRoomID event roomID;;
      updateStateAt room event;;
      notifyListenersAt event);;
    forRangeEvents (TimelineEvents roomData) (λ event,
      assignRoomID event roomID;;
      notifyListenersAt event)).

(** The loop of lines 73-80; [event] is [&event]. *)
Definition processInvite (order : list string) (res : RespSync) : Go unit :=
  forRange (Invite res) order (λ roomID roomData,
    room ← getOrCreateRoom roomID;
    forRangeEvents (InviteStateEvents roomData) (λ event,
      assignRoomID event roomID;;
      updateStateAt room event;;
      notifyListenersAt event)).

(** Lines 61-81, the part of [ProcessResponse] that runs under the deferred
    [recover]. *)
Definition processRooms (sched : Schedule) (res : option RespSync) : Go unit :=
  match res with
  | None => panic nilDereference
  | Some r => processJoin (joinOrder sched) r;; processInvite (inviteOrder sched) r
  end.

(** The text [debug.Stack()] returns is the runtime's. *)
Variable stack : string.

Definition newline : string := String (Ascii.ascii_of_nat 10) "".

(** The error built at line 57. *)
Definition panicError (userID since r : string) : error :=
  "ProcessResponse panicked! userID=" +:+ userID +:+ " since=" +:+ since
  +:+ " panic=" +:+ r +:+ newline +:+ stack.

(** What a call of [ProcessResponse] leaves: its result, the response
    behind [res], and the machine. *)
Record Outcome : Type := mkOutcome {
  result : go_result (option error);
  response : option RespSync;
  machine : Machine
}.

Definition ProcessResponse (sched : Schedule) (res : option RespSync)
    (since : string) (m : Machine) : Outcome :=
  match shouldProcessResponse (syncer m) (scanOrder sched) res since with
  | (Panicked r, res') =>
    {| result := Panicked r; response := res'; machine := m |}
  | (Returned false, res') =>
    {| result := Returned None; response := res'; machine := m |}
  | (Returned true, res') =>
    match processRooms sched res' m with
    | (Returned _, m') =>
      {| result := Returned None; response := res'; machine := m' |}
    | (Panicked r, m') =>
      {| result := Returned (Some (panicError (UserID (syncer m')) since r));
         response := res'; machine := m' |}
    end
  end.

(** *** OnFailedSync *)

Definition OnFailedSync (s : DefaultSyncer) (res : option RespSync)
    (err : option error) : Duration * option error :=
  ((10 * Second)%Z, None).

End Syncer.

Arguments mkDefaultSyncer {W} _ _ _.
Arguments UserID {W} _.
Arguments Rooms {W} _.
Arguments listenersMap {W} _.
Arguments listeners {W} _.
Arguments NewDefaultSyncer {W} _.
Arguments OnEventType {W} _ _ _.
Arguments lookupRoom {W} _ _.
Arguments shouldProcessResponse {W} _ _ _ _.
Arguments OnFailedSync {W} _ _ _.
Arguments mkMachine {W} _ _ _ _.
Arguments syncer {W} _.
Arguments heap {W} _.
Arguments world {W} _.
Arguments calls {W} _.
Arguments panic {W A} _ _.
Arguments forEach {W A} _ _ _.
Arguments forRange {W A} _ _ _ _.
Arguments setRooms {W} _ _.
Arguments getOrCreateRoom {W} _ _.
Arguments addressesInUse {W} _.
Arguments newVar {W} _.
Arguments assign {W} _ _ _.
Arguments deref {W} _ _.
Arguments assignRoomID {W} _ _ _.
Arguments forRangeEvents {W} _ _ _.
Arguments updateRoom {W} _ _ _ _.
Arguments updateStateAt {W} _ _ _.
Arguments notifyListenersAt {W} _ _.
Arguments invoke {W} _ _ _.
Arguments notifyListeners {W} _ _.
Arguments processJoin {W} _ _ _.
Arguments processInvite {W} _ _ _.
Arguments processRooms {W} _ _ _.
Arguments mkOutcome {W} _ _ _.
Arguments result {W} _.
Arguments response {W} _.
Arguments machine {W} _.
Arguments ProcessResponse {W} _ _ _ _ _.

(** ** Notions the properties are stated with *)

(** The condition under which the scan removes a room at an event: the
    tests of lines 110, 112 and 116 together. *)
Definition isSelfJoin (userID : string) (e : Event) : bool :=
  isSelfMember userID e &&
  match Content e !! "membership" with
  | Some (VString mship) => String.eqb mship "join"
  | _ => false
  end.

(** A timeline holds such an event. *)
Definition hasSelfJoin (userID : string) (timeline : list Event) : bool :=
  existsb (isSelfJoin userID) timeline.

(** The most recent event of a timeline that is a membership event of the
    account itself. *)
Definition mostRecentSelfMember (userID : string) (timeline : list Event)
    : option Event :=
  find (isSelfMember userID) (rev timeline).

(** The scan removes room [k] of response [r] when it visits it. *)
Definition suppressed (userID : string) (r : RespSync) (k : string) : bool :=
  match Join r !! k with
  | Some roomData => hasSelfJoin userID (TimelineEvents roomData)
  | None => false
  end.

(** The (type, state-key) pair of an event. *)
Definition keyOf (e : Event) : string * string := (Type_ e, StateKey e).

(** A range loop over [entries] that takes the keys in the order [order]
    has at least one turn. *)
Definition hasTurn {A : Type} (entries : gmap string A) (order : list string)
    : bool :=
  existsb (λ k, bool_decide (is_Some (entries !! k))) order.

(** What the state of a room reads for a pair once a loop of
    [ProcessResponse] over [events] has run to its end: every pair of an
    event of the list was filed under the address of the one loop
    variable, which holds the last event of the list. *)
Definition filedBy (roomID : string) (events : list Event)
    (key : string * string) : option Event :=
  if bool_decide (key ∈ keyOf <$> events)
  then setRoomID roomID <$> last events
  else None.

(** A reading that a later loop may replace. *)
Definition overlay (new old : option Event) : option Event :=
  match new with
  | Some e => Some e
  | None => old
  end.

(** What the loop over the state events of the joined entry of [roomID]
    files, and what the loop over those of its invited entry files. *)
Definition joinedState (r : RespSync) (roomID : string)
    (key : string * string) : option Event :=
  match Join r !! roomID with
  | Some roomData => filedBy roomID (StateEvents roomData) key
  | None => None
  end.

Definition invitedState (r : RespSync) (roomID : string)
    (key : string * string) : option Event :=
  match Invite r !! roomID with
  | Some roomData => filedBy roomID (InviteStateEvents roomData) key
  | None => None
  end.

(** What the state of room [roomID] reads for a pair after a call that
    processed response [r] and returned, given what it read before: the
    loop over the invited entry ran after the loop over the joined
    entry. *)
Definition aliasedState (r : RespSync) (roomID : string)
    (key : string * string) (old : option Event) : option Event :=
  overlay (invitedState r roomID key) (overlay (joinedState r roomID key) old).

(** The response names room [roomID], as a joined or an invited room. *)
Definition named (r : RespSync) (roomID : string) : bool :=
  bool_decide (is_Some (Join r !! roomID)) ||
  bool_decide (is_Some (Invite r !! roomID)).

(** *** The table and the heap as one store *)

Definition Store : Type := gmap string Room * gmap addr Event.

Definition freshIn (s : Store) : addr :=
  fresh ((map_to_list s.2).*1 ++ tablePointers s.1).

(** The store after a loop variable is declared. *)
Definition declare (s : Store) : Store :=
  (s.1, <[freshIn s := zeroEvent]> s.2).

(** The store after [getOrCreateRoom k]. *)
Definition ensureRoom (k : string) (s : Store) : Store :=
  (match s.1 !! k with
   | Some _ => s.1
   | None => <[k := NewRoom k]> s.1
   end, s.2).

(** The store after one turn of a loop over state events: the variable at
    [event] takes the event [e], and room [k] files the address. *)
Definition fileStep (k : string) (event : addr) (s : Store) (e : Event)
    : Store :=
  (alter (λ room, UpdateState room event e) k s.1, <[event := e]> s.2).

(** The store after one turn of the loop over timeline events. *)
Definition holdStep (event : addr) (s : Store) (e : Event) : Store :=
  (s.1, <[event := e]> s.2).

(** The store after the loop over the state events of room [k], and after
    the loop over its timeline events. *)
Definition stateLoopStore (k : string) (events : list Event) (s : Store)
    : Store :=
  foldl (fileStep k (freshIn s)) (declare s) (setRoomID k <$> events).

Definition timelineLoopStore (k : string) (events : list Event) (s : Store)
    : Store :=
  foldl (holdStep (freshIn s)) (declare s) (setRoomID k <$> events).

(** The store after one turn of the loop over the joined rooms, and of the
    loop over the invited rooms. *)
Definition joinStore (r : RespSync) (s : Store) (k : string) : Store :=
  match Join r !! k with
  | Some roomData =>
    timelineLoopStore k (TimelineEvents roomData)
      (stateLoopStore k (StateEvents roomData) (ensureRoom k s))
  | None => s
  end.

Definition inviteStore (r : RespSync) (s : Store) (k : string) : Store :=
  match Invite r !! k with
  | Some roomData =>
    stateLoopStore k (InviteStateEvents roomData) (ensureRoom k s)
  | None => s
  end.

(** The store after lines 61-81 on response [r]. *)
Definition reduceStore (sched : Schedule) (r : RespSync) (s : Store) : Store :=
  foldl (inviteStore r) (foldl (joinStore r) s (joinOrder sched))
    (inviteOrder sched).

(** The identifier of room [j] of a store. *)
Definition roomName (s : Store) (j : string) : option string :=
  ID <$> s.1 !! j.

(** The identifier of a room the loops went through: the room was there,
    or was made with its key as identifier. *)
Definition ensured (present : bool) (j : string) (old : option string)
    : option string :=
  if present then Some (default j old) else old.

(** What room [k] of a store reads for a pair. *)
Definition readStore (s : Store) (k : string) (key : string * string)
    : option Event :=
  room ← s.1 !! k; event ← State room !! key; s.2 !! event.

Section Notions.

Context {W : Type}.

(** What the state of room [roomID] reads for a pair: the event at the
    address the room holds for the pair. *)
Definition stateOf (m : Machine W) (roomID : string) (key : string * string)
    : option Event :=
  room ← lookupRoom (syncer m) roomID;
  event ← State room !! key;
  heap m !! event.



(** The invocations [notifyListeners] makes for the events of a list: for
    each event in turn, the listeners of its type in registration order. *)
Definition dispatchPlan (ls : gmap string (list (OnEventListener W)))
    (events : list Event) : list (OnEventListener W * Event) :=
  events ≫= λ e, (λ fn, (fn, e)) <$> default [] (ls !! Type_ e).

(** The invocations for one joined room: its state events, then its
    timeline events, stamped with the room. *)
Definition joinPlan (ls : gmap string (list (OnEventListener W)))
    (r : RespSync) (roomID : string) : list (OnEventListener W * Event) :=
  match Join r !! roomID with
  | Some roomData =>
    dispatchPlan ls (setRoomID roomID <$> StateEvents roomData) ++
    dispatchPlan ls (setRoomID roomID <$> TimelineEvents roomData)
  | None => []
  end.

(** The invocations for one invited room. *)
Definition invitePlan (ls : gmap string (list (OnEventListener W)))
    (r : RespSync) (roomID : string) : list (OnEventListener W * Event) :=
  match Invite r !! roomID with
  | Some roomData =>
    dispatchPlan ls (setRoomID roomID <$> InviteStateEvents roomData)
  | None => []
  end.

(** The invocations for a response: the joined rooms in the order of the
    first loop, then the invited rooms in the order of the second. *)
Definition responsePlan (ls : gmap string (list (OnEventListener W)))
    (sched : Schedule) (r : RespSync) : list (OnEventListener W * Event) :=
  (joinOrder sched ≫= joinPlan ls r) ++ (inviteOrder sched ≫= invitePlan ls r).

(** The world after the listeners of the invocations [invocations] have
    been applied to their events, one after the other, from world [w]. *)
Definition worldAfter (invocations : list (OnEventListener W * Event)) (w : W)
    : W :=
  foldl (λ w c, snd (c.1 c.2 w)) w invocations.

(** Running the invocations of a plan from world [w], each listener on the
    world the one before left: the panic value of the first listener that
    panics, if one does. *)
Fixpoint firstPanic (plan : list (OnEventListener W * Event)) (w : W)
    : option string :=
  match plan with
  | [] => None
  | (fn, e) :: plan' =>
    match fn e w with
    | (Returned _, w') => firstPanic plan' w'
    | (Panicked p, _) => Some p
    end
  end.

(** The invocations of the plan that are made: those up to the first
    listener that panics, that one included. *)
Fixpoint executed (plan : list (OnEventListener W * Event)) (w : W)
    : list (OnEventListener W * Event) :=
  match plan with
  | [] => []
  | (fn, e) :: plan' =>
    (fn, e) ::
    match fn e w with
    | (Returned _, w') => executed plan' w'
    | (Panicked _, _) => []
    end
  end.

(** The fault of lines 61-81 on machine [m] for the response [r] the scan
    left: with a nil table the write of [getOrCreateRoom] at the first
    room, otherwise the panic of the first listener of the dispatch order
    that panics. *)
Definition reducerFault (m : Machine W) (sched : Schedule) (r : RespSync)
    : option string :=
  match Rooms (syncer m) with
  | None =>
    if hasTurn (Join r) (joinOrder sched) ||
       hasTurn (Invite r) (inviteOrder sched)
    then Some nilMapAssignment else None
  | Some _ =>
    firstPanic (responsePlan (listeners (syncer m)) sched r) (world m)
  end.

(** The listener invocations of lines 61-81 on machine [m]: those of the
    dispatch order up to the first panic; none with a nil table (the call
    stops at the first room, or there is no room). *)
Definition reducerCalls (m : Machine W) (sched : Schedule) (r : RespSync)
    : list (OnEventListener W * Event) :=
  match Rooms (syncer m) with
  | None => []
  | Some _ =>
    executed (responsePlan (listeners (syncer m)) sched r) (world m)
  end.

(** Every listener registered in [ls] returns, whatever the event and the
    world it is run on. *)
Definition quiet (ls : gmap string (list (OnEventListener W))) : Prop :=
  ∀ (t : string) (fns : list (OnEventListener W)) (fn : OnEventListener W)
    (e : Event) (w : W),
    ls !! t = Some fns → fn ∈ fns → fst (fn e w) = Returned tt.

(** The world after the listeners [fns] have run on [e] one after the
    other. *)
Definition runListeners (fns : list (OnEventListener W)) (e : Event) (w : W)
    : W :=
  foldl (λ w fn, snd (fn e w)) w fns.

(** A run of [OnEventType] calls for one type, one per callback in list
    order; it ends at the first call that panics. *)
Fixpoint registerAll (eventType : string)
    (callbacks : list (OnEventListener W)) (s : DefaultSyncer W)
    : go_result unit * DefaultSyncer W :=
  match callbacks with
  | [] => (Returned tt, s)
  | callback :: callbacks' =>
    match OnEventType eventType callback s with
    | (Returned _, s') => registerAll eventType callbacks' s'
    | (Panicked p, s') => (Panicked p, s')
    end
  end.

(** Every room of the table is filed under its own identifier. *)
Definition keyed (s : DefaultSyncer W) : Prop :=
  ∀ (k : string) (room : Room), lookupRoom s k = Some room → ID room = k.

(** *** Relations between the machine before and after a computation *)

(** [c] invokes listeners as [plan] says, however it ends: what it adds to
    [calls] is a prefix of [plan], and all of [plan] when it returns; the
    world is what the invoked listeners made of it.  It changes neither
    the listeners nor the user identifier. *)
Definition traces {A : Type} (ls : gmap string (list (OnEventListener W)))
    (c : Go W A) (plan : list (OnEventListener W * Event)) : Prop :=
  ∀ (m : Machine W) (r : go_result A) (m' : Machine W),
    listeners (syncer m) = ls →
    c m = (r, m') →
    (listeners (syncer m') = ls ∧ UserID (syncer m') = UserID (syncer m)) ∧
    ∃ new, calls m' = calls m ++ new ∧
           world m' = worldAfter new (world m) ∧
           new `prefix_of` plan ∧
           ∀ a, r = Returned a → new = plan.

(** On a machine with listeners [ls] and a table that is not nil, [c] runs
    the invocations of [plan] up to the first panic: it panics with the
    value of that panic, and returns when no listener panics. *)
Definition performs {A : Type} (ls : gmap string (list (OnEventListener W)))
    (c : Go W A) (plan : list (OnEventListener W * Event)) : Prop :=
  ∀ (m : Machine W),
    listeners (syncer m) = ls → is_Some (Rooms (syncer m)) →
    ∃ (r : go_result A) (m' : Machine W),
      c m = (r, m') ∧
      match firstPanic plan (world m) with
      | Some p => r = Panicked p
      | None => ∃ a, r = Returned a
      end ∧
      listeners (syncer m') = ls ∧ is_Some (Rooms (syncer m')) ∧
      calls m' = calls m ++ executed plan (world m) ∧
      world m' = worldAfter (executed plan (world m)) (world m).

(** From a machine that satisfies [I], [c] leads to a machine related to it
    by [R], however it ends. *)
Definition steps {A : Type} (I : Machine W → Prop)
    (R : Machine W → Machine W → Prop) (c : Go W A) : Prop :=
  ∀ (m : Machine W) (r : go_result A) (m' : Machine W),
    I m → c m = (r, m') → R m m'.

(** The condition every machine satisfies. *)
Definition always : Machine W → Prop := λ _, True.

(** From [m] to [m'] the syncer keeps its user identifier, its listeners
    and the nil-ness of its table; every room stays, under the same key and
    with the same identifier; [keyed] is kept. *)
Definition grows (m m' : Machine W) : Prop :=
  UserID (syncer m') = UserID (syncer m) ∧
  listeners (syncer m') = listeners (syncer m) ∧
  (is_Some (Rooms (syncer m')) ↔ is_Some (Rooms (syncer m))) ∧
  (∀ (k : string) (room : Room),
     lookupRoom (syncer m) k = Some room →
     ∃ room', lookupRoom (syncer m') k = Some room' ∧ ID room' = ID room) ∧
  (keyed (syncer m) → keyed (syncer m')).

(** From [m] to [m'] room [roomID] is the same, and so is every event
    variable its state points to. *)
Definition sameRoom (roomID : string) (m m' : Machine W) : Prop :=
  lookupRoom (syncer m') roomID = lookupRoom (syncer m) roomID ∧
  ∀ (room : Room) (key : string * string) (event : addr),
    lookupRoom (syncer m) roomID = Some room →
    State room !! key = Some event →
    heap m' !! event = heap m !! event.

(** The state of room [roomID] does not hold the address [event]. *)
Definition unheld (roomID : string) (event : addr) (m : Machine W) : Prop :=
  ∀ (room : Room) (key : string * string),
    lookupRoom (syncer m) roomID = Some room → State room !! key ≠ Some event.

(** When [c] returns on a machine whose table is not nil, the table and
    the heap are [G] of what they were. *)
Definition stores {A : Type} (G : Store → Store) (c : Go W A) : Prop :=
  ∀ (m : Machine W) (t : gmap string Room) (a : A) (m' : Machine W),
    Rooms (syncer m) = Some t →
    c m = (Returned a, m') →
    Rooms (syncer m') = Some (G (t, heap m)).1 ∧
    heap m' = (G (t, heap m)).2.

(** The loop over the state events of a room, and the loop over its
    timeline events, as loops over the stamped events: in each turn the
    variable takes the stamped event. *)
Definition stateLoop (room : RoomPtr) (roomID : string) (events : list Event)
    : Go W unit :=
  event ← newVar;
  forEach (setRoomID roomID <$> events) (λ e,
    assign event e;; updateRoom room event e;; notifyListeners e).

Definition timelineLoop (roomID : string) (events : list Event) : Go W unit :=
  event ← newVar;
  forEach (setRoomID roomID <$> events) (λ e,
    assign event e;; notifyListeners e).

End Notions.

(** ** A small instance

    The account [@bot:example.org], two rooms, listeners that write a line
    to a log (the world), and a listener that panics. *)

Definition bot : string := "@bot:example.org".
Definition room1 : string := "!r:example.org".
Definition room2 : string := "!s:example.org".

Definition nameEvent (name : string) : Event :=
  mkEvent "m.room.name" "" "" "@alice:example.org" {[ "name" := VString name ]}.

Definition topicEvent (topic : string) : Event :=
  mkEvent "m.room.topic" "" "" "@alice:example.org"
    {[ "topic" := VString topic ]}.

Definition messageEvent (body : string) : Event :=
  mkEvent "m.room.message" "" "" "@alice:example.org" {[ "body" := VString body ]}.

Definition memberEvent (who : string) (membership : value) : Event :=
  mkEvent "m.room.member" who "" who {[ "membership" := membership ]}.

Definition logger (tag : string) : OnEventListener (list string) :=
  λ e w, (Returned tt, w ++ [tag +:+ " " +:+ Type_ e +:+ " " +:+ RoomID e]).

Definition faulty : OnEventListener (list string) :=
  λ e w, (Panicked "boom", w).

(** The syncer of [NewDefaultSyncer] after three calls of [OnEventType]. *)
Definition botSyncer : DefaultSyncer (list string) :=
  (OnEventType "m.room.message" (logger "second")
     (OnEventType "m.room.name" (logger "first")
        (OnEventType "m.room.message" (logger "first")
           (NewDefaultSyncer bot)).2).2).2.

Definition botMachine : Machine (list string) := mkMachine botSyncer ∅ [] [].

Definition faultyMachine : Machine (list string) :=
  mkMachine (OnEventType "m.room.message" faulty botSyncer).2 ∅ [] [].

(** The orders of the range loops when [room1] is the only joined room and
    it stays. *)
Definition oneRoom : Schedule := mkSchedule [room1] [room1] [].

(** The orders for [rejoinedResponse] below: two joined rooms, of which the
    scan removes [room1]. *)
Definition twoRooms : Schedule := mkSchedule [room2; room1] [room2] [].

(** Two state events with the same pair, and a message. *)
Definition plainRoom : JoinedRoom :=
  mkJoinedRoom [nameEvent "Test"; nameEvent "Test again"] [messageEvent "hi"].
Definition plainResponse : RespSync :=
  mkRespSync {[ room1 := plainRoom ]} ∅.

(** Two state events with the same pair, followed by a state event with
    another pair. *)
Definition renamedRoom : JoinedRoom :=
  mkJoinedRoom [nameEvent "Test"; nameEvent "Test again"; topicEvent "News"]
    [messageEvent "hi"].
Definition renamedResponse : RespSync :=
  mkRespSync {[ room1 := renamedRoom ]} ∅.

(** The account's own join is the most recent membership event. *)
Definition rejoinedRoom : JoinedRoom :=
  mkJoinedRoom [nameEvent "Test"]
    [messageEvent "old"; memberEvent bot (VString "join"); messageEvent "hi"].
Definition rejoinedResponse : RespSync :=
  mkRespSync {[ room1 := rejoinedRoom; room2 := plainRoom ]}
             {[ room1 := mkInvitedRoom [nameEvent "Invite"] ]}.

(** The account joined and then left: the most recent membership event of
    the account is the leave. *)
Definition leftRoom : JoinedRoom :=
  mkJoinedRoom [nameEvent "Test"]
    [memberEvent bot (VString "join"); messageEvent "bye";
     memberEvent bot (VString "leave")].
Definition leftResponse : RespSync :=
  mkRespSync {[ room1 := leftRoom ]} ∅.

(** A membership event of the account whose membership is not a string. *)
Definition oddMember : Event := memberEvent bot (VNumber 1).

(** Three listeners for messages, the second of which panics. *)
Definition faultyMiddleMachine : Machine (list string) :=
  mkMachine
    (registerAll "m.room.message" [logger "first"; faulty; logger "late"]
       (NewDefaultSyncer bot)).2
    ∅ [] [].

(** A syncer built as a struct literal: its table and its listeners map are
    nil. *)
Definition literalSyncer : DefaultSyncer (list string) :=
  mkDefaultSyncer bot None None.

Definition nilTableMachine : Machine (list string) :=
  mkMachine literalSyncer ∅ [] [].

(** One joined room and one room the account is only invited to. *)
Definition invitedResponse : RespSync :=
  mkRespSync {[ room1 := plainRoom ]}
             {[ room2 := mkInvitedRoom [nameEvent "Invite"] ]}.
Definition invitedSchedule : Schedule := mkSchedule [room1] [room1] [room2].

(** ** The in-memory stores *)

(** [InMemoryNextBatchStore].  The map is [None] when nil (the zero value
    of the struct). *)
Record InMemoryNextBatchStore : Type := mkInMemoryNextBatchStore {
  UserToNextBatch : option (gmap string string)
}.

(** [SaveNextBatch]: the outcome and the store as it is left. *)
Definition SaveNextBatch (userID nextBatch : string)
    (s : InMemoryNextBatchStore) : go_result unit * InMemoryNextBatchStore :=
  match UserToNextBatch s with
  | Some tokens =>
    (Returned tt, {| UserToNextBatch := Some (<[userID := nextBatch]> tokens) |})
  | None => (Panicked nilMapAssignment, s)
  end.

Definition LoadNextBatch (userID : string) (s : InMemoryNextBatchStore)
    : string :=
  match UserToNextBatch s with
  | Some tokens => default "" (tokens !! userID)
  | None => ""
  end.

(** [InMemoryFilterStore]; [json.RawMessage] is a byte slice. *)
Record InMemoryFilterStore : Type := mkInMemoryFilterStore {
  Filter : list Byte.byte;
  UserToFilter : option (gmap string string)
}.

Definition SaveFilter (userID filterID : string) (s : InMemoryFilterStore)
    : go_result unit * InMemoryFilterStore :=
  match UserToFilter s with
  | Some filters =>
    (Returned tt,
     {| Filter := Filter s;
        UserToFilter := Some (<[userID := filterID]> filters) |})
  | None => (Panicked nilMapAssignment, s)
  end.

Definition LoadFilter (userID : string) (s : InMemoryFilterStore) : string :=
  match UserToFilter s with
  | Some filters => default "" (filters !! userID)
  | None => ""
  end.

Definition GetFilterJSON (userID : string) (s : InMemoryFilterStore)
    : list Byte.byte :=
  Filter s.

(** A run of [SaveNextBatch] calls, one per (user, token) pair, oldest
    first; it ends at the first call that panics. *)
Fixpoint saveNextBatches (saves : list (string * string))
    (s : InMemoryNextBatchStore) : go_result unit * InMemoryNextBatchStore :=
  match saves with
  | [] => (Returned tt, s)
  | (userID, nextBatch) :: saves' =>
    match SaveNextBatch userID nextBatch s with
    | (Returned _, s') => saveNextBatches saves' s'
    | (Panicked p, s') => (Panicked p, s')
    end
  end.

(** The token of the most recent pair for [userID] in a run of saves. *)
Definition lastSaved (userID : string) (saves : list (string * string))
    : option string :=
  snd <$> find (λ save, String.eqb (fst save) userID) (rev saves).

Definition tokenStore : InMemoryNextBatchStore :=
  mkInMemoryNextBatchStore (Some {[ bot := "s0" ]}).

Definition filterStore : InMemoryFilterStore :=
  mkInMemoryFilterStore [Byte.x7b; Byte.x7d] (Some ∅).

(** ** The replay-suppression pass *)

Lemma scanTimeline_spec (userID roomID : string) (events : list Event)
    (n : nat) (resp : RespSync) :
  scanTimeline userID roomID events n resp =
  if hasSelfJoin userID (take n events) && bool_decide (is_Some (Join resp !! roomID))
  then removeRoom roomID resp else resp.
Proof.
  induction n as [|i IH]; simpl.
  - done.
  - destruct (events !! i) as [e|] eqn:He.
    + rewrite (take_S_r _ _ _ He). unfold hasSelfJoin in *.
      rewrite existsb_app. simpl. rewrite orb_false_r.
      unfold isSelfJoin at 2.
      destruct (isSelfMember userID e); simpl.
      * destruct (Content e !! "membership") as [[| | |mship| |]|];
          try (by rewrite orb_false_r).
        destruct (String.eqb mship "join").
        -- rewrite orb_true_r. simpl.
           destruct (Join resp !! roomID) eqn:Hj.
           ++ rewrite bool_decide_true; [done | eauto].
           ++ rewrite IH, bool_decide_false; [|by intros [? ?]].
              by rewrite andb_false_r.
        -- by rewrite orb_false_r.
      * by rewrite orb_false_r.
    + rewrite IH. apply lookup_ge_None in He.
      by rewrite !take_ge by lia.
Qed.

Lemma scanRoom_spec (userID : string) (r : RespSync) (k : string) :
  scanRoom userID r k = if suppressed userID r k then removeRoom k r else r.
Proof.
  unfold scanRoom, suppressed.
  destruct (Join r !! k) as [rd|] eqn:Hk; [|done].
  rewrite scanTimeline_spec, take_ge by lia.
  rewrite Hk, bool_decide_true by eauto. by rewrite andb_true_r.
Qed.

Lemma suppressed_removeRoom (userID : string) (r : RespSync) (h k : string) :
  suppressed userID (removeRoom h r) k =
  if bool_decide (k = h) then false else suppressed userID r k.
Proof.
  unfold suppressed, removeRoom; simpl.
  case_bool_decide as Hkh; subst.
  - by rewrite lookup_delete_eq.
  - by rewrite lookup_delete_ne.
Qed.

Lemma range_order_elem_of {A : Type} (m : gmap string A) (ks : list string)
    (k : string) :
  range_order m ks → (k ∈ ks ↔ is_Some (m !! k)).
Proof.
  unfold range_order. intros ->. rewrite list_elem_of_fmap. split.
  - intros ([k' v] & -> & Hin). apply elem_of_map_to_list in Hin. eauto.
  - intros [v Hv]. exists (k, v). split; [done|]. by apply elem_of_map_to_list.
Qed.

Lemma range_order_NoDup {A : Type} (m : gmap string A) (ks : list string) :
  range_order m ks → NoDup ks.
Proof. unfold range_order. intros ->. apply NoDup_fst_map_to_list. Qed.

Lemma elem_of_cons_ne_decide (k h : string) (t : list string) :
  k ≠ h → bool_decide (k ∈ h :: t) = bool_decide (k ∈ t).
Proof.
  intros Hkh. apply bool_decide_ext. rewrite elem_of_cons.
  split; [by intros [?|?] | by right].
Qed.

Lemma scan_fold_lookup (userID : string) (order : list string) :
  ∀ (r : RespSync) (k : string),
    let r' := foldl (scanRoom userID) r order in
    let gone := bool_decide (k ∈ order) && suppressed userID r k in
    Join r' !! k = (if gone then None else Join r !! k) ∧
    Invite r' !! k = (if gone then None else Invite r !! k).
Proof.
  induction order as [|h t IH]; intros r k; simpl.
  - done.
  - specialize (IH (scanRoom userID r h) k). simpl in IH.
    destruct IH as [-> ->]. rewrite scanRoom_spec.
    destruct (decide (k = h)) as [->|Hkh].
    + rewrite (bool_decide_true (h ∈ h :: t)) by (apply elem_of_cons; left; reflexivity).
      simpl. destruct (suppressed userID r h) eqn:Hs.
      * rewrite suppressed_removeRoom, (bool_decide_true (h = h)) by done.
        rewrite andb_false_r. unfold removeRoom. simpl.
        by rewrite !lookup_delete_eq.
      * rewrite Hs. by rewrite andb_false_r.
    + rewrite (elem_of_cons_ne_decide k h t Hkh).
      destruct (suppressed userID r h) eqn:Hs; [|done].
      rewrite suppressed_removeRoom, (bool_decide_false (k = h)) by done.
      unfold removeRoom. simpl. by rewrite !lookup_delete_ne.
Qed.

Lemma mostRecentSelfMember_join (userID : string) (timeline : list Event)
    (e : Event) :
  mostRecentSelfMember userID timeline = Some e →
  Content e !! "membership" = Some (VString "join") →
  hasSelfJoin userID timeline = true.
Proof.
  unfold mostRecentSelfMember, hasSelfJoin. intros Hfind Hm.
  apply find_some in Hfind as [Hin Hself].
  apply existsb_exists. exists e. split.
  - by apply in_rev.
  - unfold isSelfJoin. by rewrite Hself, Hm.
Qed.

Lemma hasSelfJoin_skip (userID : string) (older newer : list Event) (e : Event) :
  isSelfJoin userID e = false →
  hasSelfJoin userID (older ++ e :: newer) = hasSelfJoin userID (older ++ newer).
Proof.
  intros He. unfold hasSelfJoin. rewrite !existsb_app. simpl. by rewrite He.
Qed.

(** ** The store after the loops *)

Lemma held_in_tablePointers (rooms : gmap string Room) (k : string)
    (room : Room) (key : string * string) (event : addr) :
  rooms !! k = Some room → State room !! key = Some event →
  event ∈ tablePointers rooms.
Proof.
  intros Hroom Hkey. unfold tablePointers. apply list_elem_of_bind.
  exists room. split.
  - apply list_elem_of_fmap. exists (key, event). split; [done|].
    by apply elem_of_map_to_list.
  - apply list_elem_of_fmap. exists (k, room). split; [done|].
    by apply elem_of_map_to_list.
Qed.

Lemma freshIn_unheld (s : Store) (k : string) (room : Room)
    (key : string * string) (event : addr) :
  s.1 !! k = Some room → State room !! key = Some event → event ≠ freshIn s.
Proof.
  intros Hroom Hkey ->.
  apply (infinite_is_fresh ((map_to_list s.2).*1 ++ tablePointers s.1)).
  apply elem_of_app. right. by eapply held_in_tablePointers.
Qed.

Lemma keyOf_setRoomID (k : string) (events : list Event) :
  keyOf <$> (setRoomID k <$> events) = keyOf <$> events.
Proof. rewrite <- list_fmap_compose. by apply list_fmap_ext. Qed.

Lemma foldl_UpdateState_ID (event : addr) (room : Room) (events : list Event) :
  ID (foldl (λ rm e, UpdateState rm event e) room events) = ID room.
Proof.
  revert room. induction events as [|e events IH]; intros room; simpl; [done|].
  by rewrite IH.
Qed.

Lemma foldl_UpdateState_lookup (event : addr) (room : Room)
    (events : list Event) (key : string * string) :
  State (foldl (λ rm e, UpdateState rm event e) room events) !! key =
  if bool_decide (key ∈ keyOf <$> events) then Some event
  else State room !! key.
Proof.
  revert room. induction events as [|e events IH]; intros room.
  { rewrite bool_decide_false; [done|]. apply not_elem_of_nil. }
  cbn [foldl]. rewrite IH, fmap_cons. cbn [UpdateState State].
  destruct (decide (key = keyOf e)) as [->|Hne].
  - rewrite (bool_decide_true (keyOf e ∈ keyOf e :: _))
      by (apply elem_of_cons; by left).
    change (Type_ e, StateKey e) with (keyOf e).
    rewrite lookup_insert_eq. by destruct (bool_decide _).
  - change (Type_ e, StateKey e) with (keyOf e).
    rewrite lookup_insert_ne by done.
    apply (f_equal (λ b : bool, if b then Some event else State room !! key)).
    apply bool_decide_ext. rewrite elem_of_cons. split; [auto|].
    by intros [?|?].
Qed.

Lemma foldl_insert_lookup_ne (event q : addr) (h : gmap addr Event)
    (events : list Event) :
  q ≠ event → foldl (λ h e, <[event := e]> h) h events !! q = h !! q.
Proof.
  intros Hne. revert h. induction events as [|e events IH]; intros h; simpl;
    [done|].
  by rewrite IH, lookup_insert_ne.
Qed.

Lemma foldl_insert_lookup (event : addr) (h : gmap addr Event)
    (events : list Event) :
  foldl (λ h e, <[event := e]> h) h events !! event =
  match last events with
  | Some e => Some e
  | None => h !! event
  end.
Proof.
  revert h. induction events as [|e events IH]; intros h; [done|].
  cbn [foldl]. rewrite IH, lookup_insert_eq, last_cons.
  by destruct (last events).
Qed.

Lemma foldl_fileStep (k : string) (event : addr) (t : gmap string Room)
    (h : gmap addr Event) (events : list Event) :
  foldl (fileStep k event) (t, h) events =
  (alter (λ room, foldl (λ rm e, UpdateState rm event e) room events) k t,
   foldl (λ h e, <[event := e]> h) h events).
Proof.
  revert t h. induction events as [|e events IH]; intros t h; simpl.
  - f_equal. symmetry. by apply alter_id.
  - unfold fileStep at 2. simpl. rewrite IH. f_equal.
    by rewrite alter_alter_eq.
Qed.

Lemma foldl_holdStep (event : addr) (t : gmap string Room)
    (h : gmap addr Event) (events : list Event) :
  foldl (holdStep event) (t, h) events =
  (t, foldl (λ h e, <[event := e]> h) h events).
Proof.
  revert h. induction events as [|e events IH]; intros h; simpl; [done|].
  unfold holdStep at 2. simpl. by rewrite IH.
Qed.

Lemma filedBy_in (k : string) (events : list Event) (key : string * string) :
  key ∈ keyOf <$> events →
  ∃ e, last events = Some e ∧ filedBy k events key = Some (setRoomID k e).
Proof.
  intros Hin. unfold filedBy. rewrite bool_decide_true by done.
  destruct (last events) as [e|] eqn:Hlast; [by exists e|].
  apply last_None in Hlast. subst. by apply elem_of_nil in Hin.
Qed.

(** *** What a room reads *)

Lemma readStore_ensureRoom (k : string) (s : Store) (j : string)
    (key : string * string) :
  readStore (ensureRoom k s) j key = readStore s j key.
Proof.
  unfold readStore, ensureRoom. simpl.
  destruct (s.1 !! k) as [room|] eqn:Hk; [done|].
  destruct (decide (j = k)) as [->|Hne].
  - by rewrite lookup_insert_eq, Hk.
  - by rewrite lookup_insert_ne.
Qed.

Lemma readStore_stateLoop_other (k : string) (events : list Event) (s : Store)
    (j : string) (key : string * string) :
  j ≠ k → readStore (stateLoopStore k events s) j key = readStore s j key.
Proof.
  intros Hne. unfold stateLoopStore, declare. rewrite foldl_fileStep.
  unfold readStore. simpl. rewrite lookup_alter_ne by done.
  destruct (s.1 !! j) as [room|] eqn:Hj; [|done]. simpl.
  destruct (State room !! key) as [q|] eqn:Hq; [|done]. simpl.
  pose proof (freshIn_unheld s j room key q Hj Hq) as Hfresh.
  by rewrite foldl_insert_lookup_ne, lookup_insert_ne.
Qed.

Lemma readStore_stateLoop (k : string) (events : list Event) (s : Store)
    (key : string * string) :
  is_Some (s.1 !! k) →
  readStore (stateLoopStore k events s) k key =
  overlay (filedBy k events key) (readStore s k key).
Proof.
  intros [room Hk]. unfold stateLoopStore, declare. rewrite foldl_fileStep.
  unfold readStore. simpl. rewrite lookup_alter_eq, Hk. simpl.
  rewrite foldl_UpdateState_lookup, keyOf_setRoomID.
  case_bool_decide as Hin.
  - destruct (filedBy_in k events key Hin) as (e & Hlast & ->). simpl.
    by rewrite foldl_insert_lookup, fmap_last, Hlast.
  - unfold filedBy. rewrite bool_decide_false by done. simpl.
    destruct (State room !! key) as [q|] eqn:Hq; [|done]. simpl.
    pose proof (freshIn_unheld s k room key q Hk Hq) as Hfresh.
    by rewrite foldl_insert_lookup_ne, lookup_insert_ne.
Qed.

Lemma readStore_timelineLoop (k : string) (events : list Event) (s : Store)
    (j : string) (key : string * string) :
  readStore (timelineLoopStore k events s) j key = readStore s j key.
Proof.
  unfold timelineLoopStore, declare. rewrite foldl_holdStep.
  unfold readStore. simpl.
  destruct (s.1 !! j) as [room|] eqn:Hj; [|done]. simpl.
  destruct (State room !! key) as [q|] eqn:Hq; [|done]. simpl.
  pose proof (freshIn_unheld s j room key q Hj Hq) as Hfresh.
  by rewrite foldl_insert_lookup_ne, lookup_insert_ne.
Qed.

Lemma ensureRoom_is_Some (k : string) (s : Store) :
  is_Some ((ensureRoom k s).1 !! k).
Proof.
  unfold ensureRoom. simpl. destruct (s.1 !! k) eqn:Hk; [by rewrite Hk|].
  rewrite lookup_insert_eq. eauto.
Qed.

Lemma readStore_joinStore (r : RespSync) (s : Store) (k : string)
    (key : string * string) :
  readStore (joinStore r s k) k key =
  overlay (joinedState r k key) (readStore s k key).
Proof.
  unfold joinStore, joinedState. destruct (Join r !! k) as [rd|]; [|done].
  rewrite readStore_timelineLoop, readStore_stateLoop
    by apply ensureRoom_is_Some.
  by rewrite readStore_ensureRoom.
Qed.

Lemma readStore_joinStore_ne (r : RespSync) (s : Store) (k j : string)
    (key : string * string) :
  j ≠ k → readStore (joinStore r s k) j key = readStore s j key.
Proof.
  intros Hne. unfold joinStore. destruct (Join r !! k) as [rd|]; [|done].
  rewrite readStore_timelineLoop, readStore_stateLoop_other by done.
  by rewrite readStore_ensureRoom.
Qed.

Lemma readStore_inviteStore (r : RespSync) (s : Store) (k : string)
    (key : string * string) :
  readStore (inviteStore r s k) k key =
  overlay (invitedState r k key) (readStore s k key).
Proof.
  unfold inviteStore, invitedState. destruct (Invite r !! k) as [rd|]; [|done].
  rewrite readStore_stateLoop by apply ensureRoom_is_Some.
  by rewrite readStore_ensureRoom.
Qed.

Lemma readStore_inviteStore_ne (r : RespSync) (s : Store) (k j : string)
    (key : string * string) :
  j ≠ k → readStore (inviteStore r s k) j key = readStore s j key.
Proof.
  intros Hne. unfold inviteStore. destruct (Invite r !! k) as [rd|]; [|done].
  rewrite readStore_stateLoop_other by done.
  by rewrite readStore_ensureRoom.
Qed.

(** A fold that changes one key in each step, over a list without
    repetition. *)
Lemma foldl_keyed {S V : Type} (F : S → string → S) (get : S → string → V)
    (upd : string → V → V) (s : S) (order : list string) (j : string) :
  (∀ s k, get (F s k) k = upd k (get s k)) →
  (∀ s k j, j ≠ k → get (F s k) j = get s j) →
  NoDup order →
  get (foldl F s order) j =
  if bool_decide (j ∈ order) then upd j (get s j) else get s j.
Proof.
  intros Hsame Hother. revert s.
  induction order as [|k order IH]; intros s Hnd; cbn [foldl].
  { rewrite bool_decide_false; [done|]. apply not_elem_of_nil. }
  apply NoDup_cons in Hnd as [Hk Hnd]. rewrite IH by done.
  destruct (decide (j = k)) as [->|Hne].
  - rewrite (bool_decide_false (k ∈ order)) by done.
    rewrite bool_decide_true by (apply elem_of_cons; by left).
    apply Hsame.
  - rewrite Hother by done.
    by rewrite (elem_of_cons_ne_decide j k order).
Qed.

Lemma readStore_reduceStore (sched : Schedule) (r : RespSync) (s : Store)
    (j : string) (key : string * string) :
  range_order (Join r) (joinOrder sched) →
  range_order (Invite r) (inviteOrder sched) →
  readStore (reduceStore sched r s) j key =
  aliasedState r j key (readStore s j key).
Proof.
  intros Hjo Hio. unfold reduceStore, aliasedState.
  rewrite (foldl_keyed (inviteStore r) (λ s j, readStore s j key)
             (λ j old, overlay (invitedState r j key) old));
    [|intros; apply readStore_inviteStore
     |intros; by apply readStore_inviteStore_ne
     |by eapply range_order_NoDup].
  rewrite (foldl_keyed (joinStore r) (λ s j, readStore s j key)
             (λ j old, overlay (joinedState r j key) old));
    [|intros; apply readStore_joinStore
     |intros; by apply readStore_joinStore_ne
     |by eapply range_order_NoDup].
  assert (∀ old, (if bool_decide (j ∈ joinOrder sched)
                  then overlay (joinedState r j key) old else old)
                 = overlay (joinedState r j key) old) as ->.
  { intros old. case_bool_decide as Hin; [done|].
    rewrite (range_order_elem_of _ _ j Hjo) in Hin. unfold joinedState.
    destruct (Join r !! j); [|done]. destruct Hin. eauto. }
  case_bool_decide as Hin; [done|].
  rewrite (range_order_elem_of _ _ j Hio) in Hin. unfold invitedState.
  destruct (Invite r !! j); [|done]. destruct Hin. eauto.
Qed.


(** *** The rooms of the table *)

Lemma roomName_ensureRoom (k : string) (s : Store) :
  roomName (ensureRoom k s) k = Some (default k (roomName s k)).
Proof.
  unfold roomName, ensureRoom. simpl.
  destruct (s.1 !! k) as [room|] eqn:Hk; [by rewrite Hk|].
  by rewrite lookup_insert_eq.
Qed.

Lemma roomName_ensureRoom_ne (k : string) (s : Store) (j : string) :
  j ≠ k → roomName (ensureRoom k s) j = roomName s j.
Proof.
  intros Hne. unfold roomName, ensureRoom. simpl.
  destruct (s.1 !! k); [done|]. by rewrite lookup_insert_ne.
Qed.

Lemma roomName_stateLoop (k : string) (events : list Event) (s : Store)
    (j : string) :
  roomName (stateLoopStore k events s) j = roomName s j.
Proof.
  unfold stateLoopStore, declare. rewrite foldl_fileStep.
  unfold roomName. simpl. destruct (decide (j = k)) as [->|Hne].
  - rewrite lookup_alter_eq. destruct (s.1 !! k); [|done]. simpl.
    by rewrite foldl_UpdateState_ID.
  - by rewrite lookup_alter_ne.
Qed.

Lemma roomName_timelineLoop (k : string) (events : list Event) (s : Store)
    (j : string) :
  roomName (timelineLoopStore k events s) j = roomName s j.
Proof. unfold timelineLoopStore, declare. by rewrite foldl_holdStep. Qed.

Lemma roomName_joinStore (r : RespSync) (s : Store) (k : string) :
  roomName (joinStore r s k) k =
  ensured (bool_decide (is_Some (Join r !! k))) k (roomName s k).
Proof.
  unfold joinStore. destruct (Join r !! k) as [rd|].
  - rewrite bool_decide_true by eauto.
    by rewrite roomName_timelineLoop, roomName_stateLoop, roomName_ensureRoom.
  - by rewrite bool_decide_false by (by intros [? ?]).
Qed.

Lemma roomName_joinStore_ne (r : RespSync) (s : Store) (k j : string) :
  j ≠ k → roomName (joinStore r s k) j = roomName s j.
Proof.
  intros Hne. unfold joinStore. destruct (Join r !! k) as [rd|]; [|done].
  rewrite roomName_timelineLoop, roomName_stateLoop.
  by apply roomName_ensureRoom_ne.
Qed.

Lemma roomName_inviteStore (r : RespSync) (s : Store) (k : string) :
  roomName (inviteStore r s k) k =
  ensured (bool_decide (is_Some (Invite r !! k))) k (roomName s k).
Proof.
  unfold inviteStore. destruct (Invite r !! k) as [rd|].
  - rewrite bool_decide_true by eauto.
    by rewrite roomName_stateLoop, roomName_ensureRoom.
  - by rewrite bool_decide_false by (by intros [? ?]).
Qed.

Lemma roomName_inviteStore_ne (r : RespSync) (s : Store) (k j : string) :
  j ≠ k → roomName (inviteStore r s k) j = roomName s j.
Proof.
  intros Hne. unfold inviteStore. destruct (Invite r !! k) as [rd|]; [|done].
  rewrite roomName_stateLoop. by apply roomName_ensureRoom_ne.
Qed.

Lemma roomName_reduceStore (sched : Schedule) (r : RespSync) (s : Store)
    (j : string) :
  range_order (Join r) (joinOrder sched) →
  range_order (Invite r) (inviteOrder sched) →
  roomName (reduceStore sched r s) j = ensured (named r j) j (roomName s j).
Proof.
  intros Hjo Hio. unfold reduceStore, named.
  rewrite (foldl_keyed (inviteStore r) roomName
             (λ j, ensured (bool_decide (is_Some (Invite r !! j))) j));
    [|intros; apply roomName_inviteStore
     |intros; by apply roomName_inviteStore_ne
     |by eapply range_order_NoDup].
  rewrite (foldl_keyed (joinStore r) roomName
             (λ j, ensured (bool_decide (is_Some (Join r !! j))) j));
    [|intros; apply roomName_joinStore
     |intros; by apply roomName_joinStore_ne
     |by eapply range_order_NoDup].
  rewrite (bool_decide_ext _ _ (range_order_elem_of _ _ j Hjo)).
  rewrite (bool_decide_ext _ _ (range_order_elem_of _ _ j Hio)).
  destruct (bool_decide (is_Some (Join r !! j))),
    (bool_decide (is_Some (Invite r !! j))); simpl; try done.
Qed.


Lemma no_turn_no_entry {A : Type} (entries : gmap string A)
    (order : list string) (k : string) :
  range_order entries order → hasTurn entries order = false →
  entries !! k = None.
Proof.
  intros Hord Hturn. destruct (entries !! k) as [v|] eqn:Hk; [|done].
  assert (k ∈ order) as Hin by (eapply range_order_elem_of; eauto).
  assert (hasTurn entries order = true) as Htrue; [|congruence].
  unfold hasTurn. apply existsb_exists. exists k. split.
  - by apply list_elem_of_In.
  - apply bool_decide_eq_true. eauto.
Qed.

Section Reducer.

Context {W : Type}.

Implicit Types (m : Machine W) (sched : Schedule).
Implicit Types (r : RespSync) (res : option RespSync).
Implicit Types (ls : gmap string (list (OnEventListener W))).
Implicit Types (plan : list (OnEventListener W * Event)).

(** ** The loops over events, turn by turn *)

Lemma forEach_ext {A : Type} (l : list A) (f g : A → Go W unit) m :
  (∀ x m0, f x m0 = g x m0) → forEach l f m = forEach l g m.
Proof.
  intros Hfg. revert m. induction l as [|x l IH]; intros m; [done|].
  cbn [forEach]. unfold mbind, Go_bind. rewrite Hfg.
  destruct (g x m) as [[u|p] m1]; [apply IH|done].
Qed.

Lemma forEach_fmap {A B : Type} (h : A → B) (l : list A) (f : B → Go W unit) m :
  forEach (h <$> l) f m = forEach l (λ x, f (h x)) m.
Proof.
  revert m. induction l as [|x l IH]; intros m; [done|].
  cbn [forEach fmap list_fmap]. unfold mbind, Go_bind.
  destruct (f (h x) m) as [[u|p] m1]; [apply IH|done].
Qed.

(** One turn of a loop over state events: the variable ends up holding the
    stamped event, the room files the variable's address under the pair of
    the event, and the listeners get the stamped event. *)
Lemma stateTurn_run (room : RoomPtr) (roomID : string) (event : addr)
    (e : Event) m :
  (assign event e;; assignRoomID event roomID;; updateStateAt room event;;
   notifyListenersAt event) m =
  (assign event (setRoomID roomID e);;
   updateRoom room event (setRoomID roomID e);;
   notifyListeners (setRoomID roomID e)) m.
Proof.
  unfold assignRoomID, updateStateAt, notifyListenersAt, deref, assign,
    updateRoom, mbind, Go_bind. cbn.
  repeat (rewrite lookup_insert_eq; cbn). rewrite insert_insert_eq.
  destruct (Rooms (syncer m)); cbn; by rewrite lookup_insert_eq.
Qed.

Lemma timelineTurn_run (roomID : string) (event : addr) (e : Event) m :
  (assign event e;; assignRoomID event roomID;; notifyListenersAt event) m =
  (assign event (setRoomID roomID e);;
   notifyListeners (setRoomID roomID e)) m.
Proof.
  unfold assignRoomID, notifyListenersAt, deref, assign, mbind, Go_bind. cbn.
  repeat (rewrite lookup_insert_eq; cbn). by rewrite insert_insert_eq.
Qed.

Lemma stateLoop_run (room : RoomPtr) (roomID : string) (events : list Event) m :
  forRangeEvents events (λ event,
    assignRoomID event roomID;; updateStateAt room event;;
    notifyListenersAt event) m =
  stateLoop room roomID events m.
Proof.
  unfold forRangeEvents, stateLoop, mbind at 1 5, Go_bind at 1 5.
  destruct (newVar m) as [[event|p] m1]; [|done].
  rewrite forEach_fmap. apply forEach_ext. intros e m0. apply stateTurn_run.
Qed.

Lemma timelineLoop_run (roomID : string) (events : list Event) m :
  forRangeEvents events (λ event,
    assignRoomID event roomID;; notifyListenersAt event) m =
  timelineLoop roomID events m.
Proof.
  unfold forRangeEvents, timelineLoop, mbind at 1 4, Go_bind at 1 4.
  destruct (newVar m) as [[event|p] m1]; [|done].
  rewrite forEach_fmap. apply forEach_ext. intros e m0. apply timelineTurn_run.
Qed.


(** ** Running a plan *)

Lemma worldAfter_app plan1 plan2 (w : W) :
  worldAfter (plan1 ++ plan2) w = worldAfter plan2 (worldAfter plan1 w).
Proof. apply foldl_app. Qed.

Lemma executed_prefix plan (w : W) : executed plan w `prefix_of` plan.
Proof.
  revert w. induction plan as [|[fn e] plan IH]; intros w; simpl; [done|].
  apply prefix_cons. destruct (fn e w) as [[u|p] w']; [apply IH|].
  apply prefix_nil.
Qed.

Lemma executed_full plan (w : W) :
  firstPanic plan w = None → executed plan w = plan.
Proof.
  revert w. induction plan as [|[fn e] plan IH]; intros w; simpl; [done|].
  destruct (fn e w) as [[u|p] w'] eqn:Hrun; [|done].
  intros Hnone. by rewrite IH.
Qed.

Lemma firstPanic_app plan1 plan2 (w : W) :
  firstPanic (plan1 ++ plan2) w =
  match firstPanic plan1 w with
  | Some p => Some p
  | None => firstPanic plan2 (worldAfter plan1 w)
  end.
Proof.
  revert w. induction plan1 as [|[fn e] plan1 IH]; intros w; simpl; [done|].
  destruct (fn e w) as [[u|p] w'] eqn:Hrun; [|done].
  rewrite IH. unfold worldAfter. simpl. by rewrite ?Hrun.
Qed.

Lemma executed_app plan1 plan2 (w : W) :
  executed (plan1 ++ plan2) w =
  match firstPanic plan1 w with
  | Some _ => executed plan1 w
  | None => plan1 ++ executed plan2 (worldAfter plan1 w)
  end.
Proof.
  revert w. induction plan1 as [|[fn e] plan1 IH]; intros w; simpl; [done|].
  destruct (fn e w) as [[u|p] w'] eqn:Hrun; [|done].
  rewrite IH. unfold worldAfter. simpl. rewrite ?Hrun. simpl.
  by destruct (firstPanic plan1 w').
Qed.

Lemma firstPanic_quiet ls plan (w : W) :
  (∀ fn e w', (fn, e) ∈ plan → fst (fn e w') = Returned tt) →
  firstPanic plan w = None.
Proof.
  revert w. induction plan as [|[fn e] plan IH]; intros w Hq; simpl; [done|].
  pose proof (Hq fn e w ltac:(apply elem_of_cons; by left)) as Hfn.
  destruct (fn e w) as [[u|p] w']; [|done].
  apply IH. intros fn' e' w'' Hin. apply Hq, elem_of_cons. by right.
Qed.

(** ** What a computation invokes *)

Lemma performs_ext {A : Type} ls (c c' : Go W A) plan :
  (∀ m, c' m = c m) → performs ls c plan → performs ls c' plan.
Proof. intros Heq Hc m Hls Hsome. rewrite Heq. by apply Hc. Qed.

Lemma performs_ret {A : Type} ls (a : A) : performs ls (mret a : Go W A) [].
Proof.
  intros m Hls Hsome. exists (Returned a), m. simpl.
  rewrite app_nil_r. eauto 10.
Qed.

Lemma performs_bind {A B : Type} ls (c : Go W A) (k : A → Go W B) plan1 plan2 :
  performs ls c plan1 → (∀ a, performs ls (k a) plan2) →
  performs ls (c ≫= k) (plan1 ++ plan2).
Proof.
  intros Hc Hk m Hls Hsome.
  destruct (Hc m Hls Hsome) as (r1 & m1 & Hrun1 & Hr1 & Hls1 & Hsome1 & Hc1 & Hw1).
  unfold mbind, Go_bind. rewrite Hrun1, firstPanic_app, executed_app.
  destruct (firstPanic plan1 (world m)) as [p|] eqn:Hp.
  - subst r1. exists (Panicked p), m1. eauto 10.
  - destruct Hr1 as [a ->]. rewrite (executed_full _ _ Hp) in Hc1, Hw1.
    destruct (Hk a m1 Hls1 Hsome1)
      as (r2 & m2 & Hrun2 & Hr2 & Hls2 & Hsome2 & Hc2 & Hw2).
    rewrite Hw1 in Hr2, Hc2, Hw2.
    exists r2, m2. split; [done|]. split; [done|]. split; [done|].
    split; [done|]. split.
    + by rewrite Hc2, Hc1, app_assoc.
    + by rewrite worldAfter_app.
Qed.

Lemma performs_forEach {A : Type} ls (body : A → Go W unit)
    (f : A → list (OnEventListener W * Event)) (l : list A) :
  (∀ x, performs ls (body x) (f x)) → performs ls (forEach l body) (l ≫= f).
Proof.
  intros Hbody. induction l as [|x l IH]; simpl.
  - apply (performs_ret ls tt).
  - apply performs_bind; [apply Hbody | intros _; apply IH].
Qed.

Lemma performs_invoke ls (fn : OnEventListener W) (e : Event) :
  performs ls (invoke fn e) [(fn, e)].
Proof.
  intros m Hls Hsome. unfold invoke. simpl.
  destruct (fn e (world m)) as [[[]|p] w] eqn:Hrun; eexists _, _;
    (split; [done|]); simpl; unfold worldAfter; simpl; rewrite ?Hrun;
    eauto 10.
Qed.

Lemma dispatchPlan_one ls (e : Event) :
  dispatchPlan ls [e] = (λ fn, (fn, e)) <$> default [] (ls !! Type_ e).
Proof. unfold dispatchPlan. simpl. by rewrite app_nil_r. Qed.

Lemma dispatchPlan_cons ls (e : Event) (events : list Event) :
  dispatchPlan ls (e :: events) = dispatchPlan ls [e] ++ dispatchPlan ls events.
Proof. unfold dispatchPlan. simpl. by rewrite app_nil_r. Qed.

Lemma performs_invokeAll ls (fns : list (OnEventListener W)) (e : Event) :
  performs ls (forEach fns (λ fn, invoke fn e)) ((λ fn, (fn, e)) <$> fns).
Proof.
  induction fns as [|fn fns IH]; simpl.
  - apply (performs_ret ls tt).
  - apply (performs_bind ls _ _ [(fn, e)] _); [apply performs_invoke | done].
Qed.

Lemma performs_notifyListeners ls (e : Event) :
  performs ls (notifyListeners e)
    ((λ fn, (fn, e)) <$> default [] (ls !! Type_ e)).
Proof.
  intros m Hls Hsome. unfold notifyListeners. rewrite Hls.
  destruct (ls !! Type_ e) as [fns|]; simpl.
  - by apply (performs_invokeAll ls fns e).
  - by apply (performs_ret ls tt).
Qed.

Lemma performs_getOrCreateRoom ls (roomID : string) :
  performs ls (getOrCreateRoom roomID) [].
Proof.
  intros m Hls [t Ht]. unfold getOrCreateRoom, lookupRoom. rewrite Ht. simpl.
  rewrite app_nil_r.
  destruct (t !! roomID); eexists _, _; (split; [done|]); simpl; eauto 10.
Qed.

Lemma performs_newVar ls : performs ls (newVar (W:=W)) [].
Proof.
  intros m Hls Hsome. unfold newVar. simpl. rewrite app_nil_r.
  eexists _, _. split; [done|]. simpl. eauto 10.
Qed.

Lemma performs_assign ls (event : addr) (e : Event) :
  performs ls (assign (W:=W) event e) [].
Proof.
  intros m Hls Hsome. unfold assign. simpl. rewrite app_nil_r.
  eexists _, _. split; [done|]. simpl. eauto 10.
Qed.

Lemma performs_updateRoom ls (room : RoomPtr) (event : addr) (e : Event) :
  performs ls (updateRoom (W:=W) room event e) [].
Proof.
  intros m Hls [t Ht]. unfold updateRoom. rewrite Ht. simpl.
  rewrite app_nil_r. eexists _, _. split; [done|]. simpl. eauto 10.
Qed.

Lemma performs_stateLoop ls (room : RoomPtr) (roomID : string)
    (events : list Event) :
  performs ls (stateLoop room roomID events)
    (dispatchPlan ls (setRoomID roomID <$> events)).
Proof.
  unfold stateLoop. apply (performs_bind ls _ _ [] _); [apply performs_newVar|].
  intros event. apply performs_forEach. intros e.
  apply (performs_bind ls _ _ [] _); [apply performs_assign|]. intros _.
  apply (performs_bind ls _ _ [] _); [apply performs_updateRoom|]. intros _.
  apply performs_notifyListeners.
Qed.

Lemma performs_timelineLoop ls (roomID : string) (events : list Event) :
  performs ls (timelineLoop roomID events)
    (dispatchPlan ls (setRoomID roomID <$> events)).
Proof.
  unfold timelineLoop.
  apply (performs_bind ls _ _ [] _); [apply performs_newVar|].
  intros event. apply performs_forEach. intros e.
  apply (performs_bind ls _ _ [] _); [apply performs_assign|]. intros _.
  apply performs_notifyListeners.
Qed.

Lemma performs_processJoin ls (order : list string) r :
  performs ls (processJoin order r) (order ≫= joinPlan ls r).
Proof.
  unfold processJoin, forRange. apply performs_forEach. intros k.
  unfold joinPlan.
  destruct (Join r !! k) as [rd|]; [|apply (performs_ret ls tt)].
  apply (performs_bind ls _ _ [] _); [apply performs_getOrCreateRoom|].
  intros room. apply performs_bind.
  - eapply performs_ext; [apply stateLoop_run | apply performs_stateLoop].
  - intros _.
    eapply performs_ext; [apply timelineLoop_run | apply performs_timelineLoop].
Qed.

Lemma performs_processInvite ls (order : list string) r :
  performs ls (processInvite order r) (order ≫= invitePlan ls r).
Proof.
  unfold processInvite, forRange. apply performs_forEach. intros k.
  unfold invitePlan.
  destruct (Invite r !! k) as [rd|]; [|apply (performs_ret ls tt)].
  apply (performs_bind ls _ _ [] _); [apply performs_getOrCreateRoom|].
  intros room.
  eapply performs_ext; [apply stateLoop_run | apply performs_stateLoop].
Qed.

Lemma performs_processRooms ls sched r :
  performs ls (processRooms sched (Some r)) (responsePlan ls sched r).
Proof.
  unfold processRooms, responsePlan. apply performs_bind.
  - apply performs_processJoin.
  - intros _. apply performs_processInvite.
Qed.


(** ** What a computation keeps, however it ends *)

Section Steps.

Variable P : Machine W → Prop.
Variable R : Machine W → Machine W → Prop.
Hypothesis R_refl : ∀ m, R m m.
Hypothesis R_trans : ∀ m1 m2 m3, R m1 m2 → R m2 m3 → R m1 m3.
Hypothesis P_R : ∀ m m', P m → R m m' → P m'.

Lemma steps_ext {A : Type} (c c' : Go W A) :
  (∀ m, c' m = c m) → steps P R c → steps P R c'.
Proof. intros Heq Hc m r m' Hm. rewrite Heq. by apply Hc. Qed.

Lemma steps_ret {A : Type} (a : A) : steps P R (mret a : Go W A).
Proof. intros m r m' _ [= <- <-]. apply R_refl. Qed.

Lemma steps_bind {A B : Type} (c : Go W A) (k : A → Go W B) :
  steps P R c →
  (∀ a m m1, c m = (Returned a, m1) → steps P R (k a)) →
  steps P R (c ≫= k).
Proof.
  intros Hc Hk m r m' Hm Hrun. unfold mbind, Go_bind in Hrun.
  destruct (c m) as [[a|p] m1] eqn:Hcm.
  - pose proof (Hc _ _ _ Hm Hcm) as H1.
    eapply R_trans; [exact H1|]. eapply (Hk a); [done| |done]. by eapply P_R.
  - injection Hrun as <- <-. by eapply Hc.
Qed.

Lemma steps_forEach {A : Type} (body : A → Go W unit) (l : list A) :
  (∀ x, steps P R (body x)) → steps P R (forEach l body).
Proof.
  intros Hbody. induction l as [|x l IH]; simpl.
  - apply (steps_ret tt).
  - apply steps_bind; [apply Hbody | intros _ _ _ _; apply IH].
Qed.

Lemma steps_forRange {A : Type} (entries : gmap string A)
    (order : list string) (body : string → A → Go W unit) :
  (∀ k v, entries !! k = Some v → steps P R (body k v)) →
  steps P R (forRange entries order body).
Proof.
  intros Hbody. unfold forRange. apply steps_forEach. intros k.
  destruct (entries !! k) as [v|] eqn:Hk; [by apply Hbody|].
  apply (steps_ret tt).
Qed.

End Steps.

Lemma getOrCreateRoom_ptr (k : string) m (room : RoomPtr) m1 :
  getOrCreateRoom k m = (Returned room, m1) → room = k.
Proof.
  unfold getOrCreateRoom. destruct (lookupRoom (syncer m) k).
  - by intros [= <- _].
  - destruct (Rooms (syncer m)); [by intros [= <- _]|done].
Qed.

Lemma grows_refl m : grows m m.
Proof. unfold grows. repeat split; eauto. Qed.

Lemma grows_trans m1 m2 m3 : grows m1 m2 → grows m2 m3 → grows m1 m3.
Proof.
  intros (Hu1 & Hl1 & Hn1 & Hr1 & Hk1) (Hu2 & Hl2 & Hn2 & Hr2 & Hk2).
  unfold grows. split; [congruence|]. split; [congruence|].
  split; [by rewrite Hn2|]. split; [|auto].
  intros k room Hroom. destruct (Hr1 k room Hroom) as (room1 & Hroom1 & Hid1).
  destruct (Hr2 k room1 Hroom1) as (room2 & Hroom2 & Hid2).
  exists room2. split; [done|congruence].
Qed.

Lemma grows_same_syncer m m' : syncer m' = syncer m → grows m m'.
Proof. intros Hs. unfold grows. rewrite Hs. repeat split; eauto. Qed.

Lemma grows_bind {A B : Type} (c : Go W A) (k : A → Go W B) :
  steps always grows c → (∀ a, steps always grows (k a)) →
  steps always grows (c ≫= k).
Proof.
  intros Hc Hk. apply steps_bind; [apply grows_trans|done|done|].
  intros a _ _ _. apply Hk.
Qed.

Lemma grows_forEach {A : Type} (body : A → Go W unit) (l : list A) :
  (∀ x, steps always grows (body x)) → steps always grows (forEach l body).
Proof. apply steps_forEach; [apply grows_refl|apply grows_trans|done]. Qed.

Lemma grows_forRange {A : Type} (entries : gmap string A)
    (order : list string) (body : string → A → Go W unit) :
  (∀ k v, steps always grows (body k v)) →
  steps always grows (forRange entries order body).
Proof.
  intros Hbody.
  apply steps_forRange; [apply grows_refl|apply grows_trans|done|].
  intros k v _. apply Hbody.
Qed.

Lemma grows_invoke (fn : OnEventListener W) (e : Event) :
  steps always grows (invoke fn e).
Proof.
  intros m r m' _ Hrun. unfold invoke in Hrun.
  destruct (fn e (world m)) as [r0 w]. injection Hrun as <- <-.
  by apply grows_same_syncer.
Qed.

Lemma grows_notifyListeners (e : Event) :
  steps always grows (notifyListeners (W:=W) e).
Proof.
  intros m r m' Hm Hrun. unfold notifyListeners in Hrun.
  destruct (listeners (syncer m) !! Type_ e) as [fns|].
  - exact (grows_forEach _ fns (λ fn, grows_invoke fn e) m r m' Hm Hrun).
  - injection Hrun as <- <-. apply grows_refl.
Qed.

Lemma grows_newVar : steps always grows (newVar (W:=W)).
Proof. intros m r m' _ [= <- <-]. by apply grows_same_syncer. Qed.

Lemma grows_assign (event : addr) (e : Event) :
  steps always grows (assign (W:=W) event e).
Proof. intros m r m' _ [= <- <-]. by apply grows_same_syncer. Qed.

Lemma grows_getOrCreateRoom (k : string) :
  steps always grows (getOrCreateRoom (W:=W) k).
Proof.
  intros m r m' _ Hrun. unfold getOrCreateRoom in Hrun.
  destruct (lookupRoom (syncer m) k) as [room|] eqn:Hk.
  { injection Hrun as <- <-. apply grows_refl. }
  destruct (Rooms (syncer m)) as [rooms|] eqn:Hrooms;
    injection Hrun as <- <-; [|apply grows_refl].
  unfold lookupRoom in Hk. rewrite Hrooms in Hk.
  unfold grows, keyed, lookupRoom, listeners. simpl. rewrite Hrooms.
  split; [done|]. split; [done|]. split; [by split; eauto|]. split.
  - intros j room Hj. exists room. split; [|done].
    rewrite lookup_insert_ne; [done|]. congruence.
  - intros Hkeyed j room. destruct (decide (k = j)) as [->|Hne].
    + rewrite lookup_insert_eq. by intros [= <-].
    + rewrite lookup_insert_ne by done. apply Hkeyed.
Qed.

Lemma grows_updateRoom (k : RoomPtr) (event : addr) (e : Event) :
  steps always grows (updateRoom (W:=W) k event e).
Proof.
  intros m r m' _ Hrun. unfold updateRoom in Hrun.
  destruct (Rooms (syncer m)) as [rooms|] eqn:Hrooms;
    injection Hrun as <- <-; [|apply grows_refl].
  unfold grows, keyed, lookupRoom, listeners. simpl. rewrite Hrooms.
  split; [done|]. split; [done|]. split; [by split; eauto|]. split.
  - intros j room Hj. destruct (decide (k = j)) as [->|Hne].
    + rewrite lookup_alter_eq, Hj. simpl. eauto.
    + rewrite lookup_alter_ne by done. eauto.
  - intros Hkeyed j room. destruct (decide (k = j)) as [->|Hne].
    + rewrite lookup_alter_eq.
      destruct (rooms !! j) as [room0|] eqn:Hj; simpl; [|done].
      intros [= <-]. simpl. by apply Hkeyed.
    + rewrite lookup_alter_ne by done. apply Hkeyed.
Qed.

Lemma grows_stateLoop (room : RoomPtr) (k : string) (events : list Event) :
  steps always grows (stateLoop (W:=W) room k events).
Proof.
  unfold stateLoop. apply grows_bind; [apply grows_newVar|]. intros event.
  apply grows_forEach. intros e.
  apply grows_bind; [apply grows_assign|]. intros _.
  apply grows_bind; [apply grows_updateRoom|]. intros _.
  apply grows_notifyListeners.
Qed.

Lemma grows_timelineLoop (k : string) (events : list Event) :
  steps always grows (timelineLoop (W:=W) k events).
Proof.
  unfold timelineLoop. apply grows_bind; [apply grows_newVar|]. intros event.
  apply grows_forEach. intros e.
  apply grows_bind; [apply grows_assign|]. intros _.
  apply grows_notifyListeners.
Qed.

Lemma grows_processRooms sched res :
  steps always grows (processRooms (W:=W) sched res).
Proof.
  destruct res as [r|]; simpl.
  - apply grows_bind; [|intros _]; apply grows_forRange; intros k rd;
      (apply grows_bind; [apply grows_getOrCreateRoom|]); intros room.
    + apply grows_bind; [|intros _].
      * eapply steps_ext; [apply stateLoop_run | apply grows_stateLoop].
      * eapply steps_ext; [apply timelineLoop_run | apply grows_timelineLoop].
    + eapply steps_ext; [apply stateLoop_run | apply grows_stateLoop].
  - intros m r m' _ [= <- <-]. apply grows_refl.
Qed.


(** ** The rooms a computation leaves alone *)

Lemma invokeAll_frame (fns : list (OnEventListener W)) (e : Event) m
    (r : go_result unit) m' :
  forEach fns (λ fn, invoke fn e) m = (r, m') →
  syncer m' = syncer m ∧ heap m' = heap m.
Proof.
  revert m. induction fns as [|fn fns IH]; intros m; simpl.
  - by intros [= <- <-].
  - unfold mbind, Go_bind, invoke at 1.
    destruct (fn e (world m)) as [[u|p] w].
    + intros Hrun. by destruct (IH _ Hrun) as [-> ->].
    + by intros [= <- <-].
Qed.

Lemma notifyListeners_frame (e : Event) m (r : go_result unit) m' :
  notifyListeners e m = (r, m') → syncer m' = syncer m ∧ heap m' = heap m.
Proof.
  unfold notifyListeners.
  destruct (listeners (syncer m) !! Type_ e) as [fns|].
  - apply invokeAll_frame.
  - by intros [= <- <-].
Qed.

Lemma newVar_fresh m (event : addr) m1 :
  newVar m = (Returned event, m1) →
  syncer m1 = syncer m ∧
  heap m1 = <[event := zeroEvent]> (heap m) ∧
  heap m !! event = None ∧
  ∀ rooms, Rooms (syncer m) = Some rooms → event ∉ tablePointers rooms.
Proof.
  unfold newVar. intros [= <- <-]. simpl.
  pose proof (infinite_is_fresh (addressesInUse m)) as Hfresh.
  set (event := fresh (addressesInUse m)) in *.
  unfold addressesInUse in Hfresh.
  rewrite elem_of_app in Hfresh.
  split; [done|]. split; [done|]. split.
  - apply not_elem_of_dom. intros Hin. apply Hfresh. left.
    apply elem_of_dom in Hin as [e He].
    apply list_elem_of_fmap. exists (event, e).
    split; [done|]. by apply elem_of_map_to_list.
  - intros rooms Hrooms Hin. apply Hfresh. right. by rewrite Hrooms.
Qed.

Section SameRoom.

Variable roomID : string.

Lemma sameRoom_refl m : sameRoom roomID m m.
Proof. by split. Qed.

Lemma sameRoom_trans m1 m2 m3 :
  sameRoom roomID m1 m2 → sameRoom roomID m2 m3 → sameRoom roomID m1 m3.
Proof.
  intros [Hr1 Hh1] [Hr2 Hh2]. split; [congruence|].
  intros room key event Hroom Hkey.
  rewrite <- (Hh1 room key event) by done.
  apply (Hh2 room key event); [congruence|done].
Qed.

Lemma sameRoom_unheld (event : addr) m m' :
  unheld roomID event m → sameRoom roomID m m' → unheld roomID event m'.
Proof.
  intros Hun [Hr _] room key Hroom. apply Hun. congruence.
Qed.

Lemma sameRoom_frame m m' :
  syncer m' = syncer m → heap m' = heap m → sameRoom roomID m m'.
Proof. intros Hs Hh. split; [by rewrite Hs|]. intros. by rewrite Hh. Qed.

Lemma sameRoom_notifyListeners (P : Machine W → Prop) (e : Event) :
  steps P (sameRoom roomID) (notifyListeners e).
Proof.
  intros m r m' _ Hrun.
  destruct (notifyListeners_frame _ _ _ _ Hrun). by apply sameRoom_frame.
Qed.

Lemma sameRoom_getOrCreateRoom (P : Machine W → Prop) (k : string) :
  k ≠ roomID → steps P (sameRoom roomID) (getOrCreateRoom k).
Proof.
  intros Hne m r m' _ Hrun. unfold getOrCreateRoom in Hrun.
  destruct (lookupRoom (syncer m) k).
  { injection Hrun as <- <-. apply sameRoom_refl. }
  destruct (Rooms (syncer m)) as [rooms|] eqn:Hrooms;
    injection Hrun as <- <-; [|apply sameRoom_refl].
  split; [|done]. unfold lookupRoom. simpl. rewrite Hrooms.
  by rewrite lookup_insert_ne.
Qed.

Lemma sameRoom_updateRoom (P : Machine W → Prop) (room : RoomPtr)
    (event : addr) (e : Event) :
  room ≠ roomID → steps P (sameRoom roomID) (updateRoom room event e).
Proof.
  intros Hne m r m' _ Hrun. unfold updateRoom in Hrun.
  destruct (Rooms (syncer m)) as [rooms|] eqn:Hrooms;
    injection Hrun as <- <-; [|apply sameRoom_refl].
  split; [|done]. unfold lookupRoom. simpl. rewrite Hrooms.
  by rewrite lookup_alter_ne.
Qed.

Lemma sameRoom_assign (event : addr) (e : Event) :
  steps (unheld roomID event) (sameRoom roomID) (assign (W:=W) event e).
Proof.
  intros m r m' Hun [= <- <-]. split; [done|]. simpl.
  intros room key q Hroom Hkey. rewrite lookup_insert_ne; [done|].
  intros <-. by apply (Hun room key).
Qed.

Lemma sameRoom_newVar m (event : addr) m1 :
  newVar m = (Returned event, m1) →
  sameRoom roomID m m1 ∧ unheld roomID event m1.
Proof.
  intros Hrun.
  destruct (newVar_fresh _ _ _ Hrun) as (Hs & Hh & _ & Hfresh).
  assert (unheld roomID event m) as Hun.
  { intros room key Hroom Hkey. unfold lookupRoom in Hroom.
    destruct (Rooms (syncer m)) as [rooms|] eqn:Hrooms; [|done].
    apply (Hfresh rooms eq_refl). by eapply held_in_tablePointers. }
  assert (sameRoom roomID m m1) as Hsame.
  { split; [by rewrite Hs|]. rewrite Hh.
    intros room key q Hroom Hkey. rewrite lookup_insert_ne; [done|].
    intros <-. by apply (Hun room key). }
  split; [done|]. by eapply sameRoom_unheld.
Qed.

Lemma sameRoom_loop (events : list Event) (body : addr → Event → Go W unit) :
  (∀ event e, steps (unheld roomID event) (sameRoom roomID) (body event e)) →
  steps always (sameRoom roomID) (event ← newVar; forEach events (body event)).
Proof.
  intros Hbody m r m' _ Hrun. unfold mbind, Go_bind in Hrun.
  destruct (newVar m) as [[event|p] m1] eqn:Hnew; [|done].
  destruct (sameRoom_newVar _ _ _ Hnew) as [Hsame Hun].
  eapply sameRoom_trans; [exact Hsame|].
  revert Hun Hrun. apply steps_forEach;
    [apply sameRoom_refl|apply sameRoom_trans|apply sameRoom_unheld|].
  intros e. apply Hbody.
Qed.

Lemma sameRoom_stateLoop (room : RoomPtr) (k : string) (events : list Event) :
  room ≠ roomID → steps always (sameRoom roomID) (stateLoop (W:=W) room k events).
Proof.
  intros Hne. unfold stateLoop. apply sameRoom_loop. intros event e.
  apply steps_bind;
    [apply sameRoom_trans|apply sameRoom_unheld|apply sameRoom_assign|].
  intros _ _ _ _. apply steps_bind;
    [apply sameRoom_trans|apply sameRoom_unheld|
     by apply sameRoom_updateRoom|].
  intros _ _ _ _. apply sameRoom_notifyListeners.
Qed.

Lemma sameRoom_timelineLoop (k : string) (events : list Event) :
  steps always (sameRoom roomID) (timelineLoop (W:=W) k events).
Proof.
  unfold timelineLoop. apply sameRoom_loop. intros event e.
  apply steps_bind;
    [apply sameRoom_trans|apply sameRoom_unheld|apply sameRoom_assign|].
  intros _ _ _ _. apply sameRoom_notifyListeners.
Qed.

Lemma sameRoom_processJoin (order : list string) r :
  Join r !! roomID = None →
  steps always (sameRoom roomID) (processJoin (W:=W) order r).
Proof.
  intros Hnone. unfold processJoin.
  apply steps_forRange; [apply sameRoom_refl|apply sameRoom_trans|done|].
  intros k rd Hk. assert (k ≠ roomID) as Hne by congruence.
  apply steps_bind;
    [apply sameRoom_trans|done|by apply sameRoom_getOrCreateRoom|].
  intros room m0 m1 ->%getOrCreateRoom_ptr.
  apply steps_bind; [apply sameRoom_trans|done| |intros _ _ _ _].
  - eapply steps_ext; [apply stateLoop_run | by apply sameRoom_stateLoop].
  - eapply steps_ext; [apply timelineLoop_run | apply sameRoom_timelineLoop].
Qed.

Lemma sameRoom_processInvite (order : list string) r :
  Invite r !! roomID = None →
  steps always (sameRoom roomID) (processInvite (W:=W) order r).
Proof.
  intros Hnone. unfold processInvite.
  apply steps_forRange; [apply sameRoom_refl|apply sameRoom_trans|done|].
  intros k rd Hk. assert (k ≠ roomID) as Hne by congruence.
  apply steps_bind;
    [apply sameRoom_trans|done|by apply sameRoom_getOrCreateRoom|].
  intros room m0 m1 ->%getOrCreateRoom_ptr.
  eapply steps_ext; [apply stateLoop_run | by apply sameRoom_stateLoop].
Qed.

Lemma sameRoom_processRooms sched r :
  Join r !! roomID = None → Invite r !! roomID = None →
  steps always (sameRoom roomID) (processRooms (W:=W) sched (Some r)).
Proof.
  intros Hj Hi. unfold processRooms.
  apply steps_bind;
    [apply sameRoom_trans|done|by apply sameRoom_processJoin|].
  intros _ _ _ _. by apply sameRoom_processInvite.
Qed.

Lemma sameRoom_stateOf m m' (key : string * string) :
  sameRoom roomID m m' → stateOf m' roomID key = stateOf m roomID key.
Proof.
  intros [Hr Hh]. unfold stateOf. rewrite Hr.
  destruct (lookupRoom (syncer m) roomID) as [room|] eqn:Hroom; [|done].
  simpl. destruct (State room !! key) as [event|] eqn:Hkey; [|done].
  simpl. by eapply Hh.
Qed.

End SameRoom.

(** ** A nil table *)

Lemma forRange_nil_table {A : Type} (entries : gmap string A)
    (order : list string) (body : string → A → Go W unit) m :
  (∀ k v, entries !! k = Some v → body k v m = (Panicked nilMapAssignment, m)) →
  forRange entries order body m =
  if hasTurn entries order
  then (Panicked nilMapAssignment, m) else (Returned tt, m).
Proof.
  intros Hbody. unfold forRange, hasTurn.
  induction order as [|h order IH]; simpl; [done|].
  unfold mbind, Go_bind.
  destruct (entries !! h) as [v|] eqn:Hh.
  - rewrite (Hbody h v Hh). by rewrite bool_decide_true by eauto.
  - unfold mret at 1, Go_ret at 1. rewrite IH.
    by rewrite bool_decide_false by (by intros [? ?]).
Qed.

Lemma getOrCreateRoom_nil_table {A : Type} (k : string)
    (rest : RoomPtr → Go W A) m :
  Rooms (syncer m) = None →
  (getOrCreateRoom k ≫= rest) m = (Panicked nilMapAssignment, m).
Proof.
  intros Hnil. unfold mbind, Go_bind, getOrCreateRoom, lookupRoom.
  by rewrite Hnil.
Qed.

Lemma processRooms_nil_table sched r m :
  Rooms (syncer m) = None →
  processRooms sched (Some r) m =
  (if hasTurn (Join r) (joinOrder sched) ||
      hasTurn (Invite r) (inviteOrder sched)
   then Panicked nilMapAssignment else Returned tt, m).
Proof.
  intros Hnil.
  unfold processRooms, mbind, Go_bind, processJoin, processInvite.
  rewrite forRange_nil_table
    by (intros k v _; by apply getOrCreateRoom_nil_table).
  destruct (hasTurn (Join r) (joinOrder sched)); [done|].
  rewrite forRange_nil_table
    by (intros k v _; by apply getOrCreateRoom_nil_table).
  by destruct (hasTurn (Invite r) (inviteOrder sched)).
Qed.

Lemma no_turn_no_plan {A : Type} (entries : gmap string A)
    (order : list string)
    (f : string → list (OnEventListener W * Event)) :
  (∀ k, entries !! k = None → f k = []) →
  hasTurn entries order = false → order ≫= f = [].
Proof.
  intros Hf. unfold hasTurn.
  induction order as [|k order IH]; [done|]. cbn [existsb].
  intros [Hk Hrest]%orb_false_iff.
  change ((k :: order) ≫= f) with (f k ++ (order ≫= f)).
  rewrite IH by done.
  rewrite Hf; [done|]. apply bool_decide_eq_false in Hk.
  destruct (entries !! k) eqn:Hlook; [|done]. destruct Hk. eauto.
Qed.

(** ** What lines 61-81 do to the world *)

Lemma reducerCalls_prefix m sched r :
  reducerCalls m sched r `prefix_of` responsePlan (listeners (syncer m)) sched r.
Proof.
  unfold reducerCalls. destruct (Rooms (syncer m)).
  - apply executed_prefix.
  - apply prefix_nil.
Qed.

Lemma reducerCalls_full m sched r :
  reducerFault m sched r = None →
  reducerCalls m sched r = responsePlan (listeners (syncer m)) sched r.
Proof.
  unfold reducerFault, reducerCalls. destruct (Rooms (syncer m)).
  - apply executed_full.
  - destruct (hasTurn (Join r) _ || hasTurn (Invite r) _) eqn:Hturn; [done|].
    intros _. apply orb_false_iff in Hturn as [Hj Hi]. unfold responsePlan.
    rewrite (no_turn_no_plan (Join r)), (no_turn_no_plan (Invite r)); try done.
    + intros k Hk. unfold invitePlan. by rewrite Hk.
    + intros k Hk. unfold joinPlan. by rewrite Hk.
Qed.

Lemma processRooms_run sched r m (res : go_result unit) m' :
  processRooms sched (Some r) m = (res, m') →
  res = match reducerFault m sched r with
        | Some p => Panicked p
        | None => Returned tt
        end ∧
  calls m' = calls m ++ reducerCalls m sched r ∧
  world m' = worldAfter (reducerCalls m sched r) (world m) ∧
  listeners (syncer m') = listeners (syncer m) ∧
  UserID (syncer m') = UserID (syncer m).
Proof.
  intros Hrun.
  destruct (grows_processRooms sched (Some r) m res m' Logic.I Hrun)
    as (Hu & Hl & _).
  unfold reducerFault, reducerCalls.
  destruct (Rooms (syncer m)) as [t|] eqn:Ht.
  - destruct (performs_processRooms (listeners (syncer m)) sched r m eq_refl)
      as (res0 & m0 & Hrun0 & Hres & _ & _ & Hcalls & Hworld); [by eauto|].
    rewrite Hrun in Hrun0. injection Hrun0 as <- <-.
    split; [|done].
    destruct (firstPanic _ _); [done|]. by destruct Hres as [[] ->].
  - rewrite processRooms_nil_table in Hrun by done.
    injection Hrun as <- <-. rewrite app_nil_r. by destruct (_ || _).
Qed.


(** ** The table and the heap after a computation that returns *)

Lemma stores_ext {A : Type} (G : Store → Store) (c c' : Go W A) :
  (∀ m, c' m = c m) → stores G c → stores G c'.
Proof. intros Heq Hc m t a m' Ht. rewrite Heq. by apply Hc. Qed.

Lemma stores_ret {A : Type} (a : A) : stores (λ s, s) (mret a : Go W A).
Proof. by intros m t a' m' Ht [= <- <-]. Qed.

Lemma stores_bind {A B : Type} (G1 G2 : Store → Store) (c : Go W A)
    (k : A → Go W B) :
  stores G1 c →
  (∀ a m m1, c m = (Returned a, m1) → stores G2 (k a)) →
  stores (λ s, G2 (G1 s)) (c ≫= k).
Proof.
  intros Hc Hk m t b m' Ht Hrun. unfold mbind, Go_bind in Hrun.
  destruct (c m) as [[a|p] m1] eqn:Hcm; [|done].
  destruct (Hc _ _ _ _ Ht Hcm) as [Ht1 Hh1].
  destruct (Hk a _ _ Hcm _ _ _ _ Ht1 Hrun) as [Ht2 Hh2].
  rewrite Hh1 in Ht2, Hh2. by destruct (G1 (t, heap m)).
Qed.

Lemma stores_forEach {A : Type} (F : Store → A → Store)
    (body : A → Go W unit) (l : list A) :
  (∀ x, stores (λ s, F s x) (body x)) →
  stores (λ s, foldl F s l) (forEach l body).
Proof.
  intros Hbody. induction l as [|x l IH]; simpl.
  - apply (stores_ret tt).
  - apply (stores_bind (λ s, F s x) (λ s, foldl F s l)); [apply Hbody|].
    intros _ _ _ _. apply IH.
Qed.

Lemma stores_forRange {A : Type} (entries : gmap string A)
    (F : string → A → Store → Store) (order : list string)
    (body : string → A → Go W unit) :
  (∀ k v, entries !! k = Some v → stores (F k v) (body k v)) →
  stores
    (λ s, foldl (λ s k, match entries !! k with
                        | Some v => F k v s
                        | None => s
                        end) s order)
    (forRange entries order body).
Proof.
  intros Hbody. unfold forRange.
  apply (stores_forEach
           (λ s k, match entries !! k with Some v => F k v s | None => s end)).
  intros k. destruct (entries !! k) as [v|] eqn:Hk; [by apply Hbody|].
  apply (stores_ret tt).
Qed.

Lemma stores_getOrCreateRoom (k : string) :
  stores (ensureRoom k) (getOrCreateRoom (W:=W) k).
Proof.
  intros m t a m' Ht. unfold getOrCreateRoom, lookupRoom, ensureRoom.
  rewrite Ht. simpl. by destruct (t !! k); intros [= <- <-].
Qed.

Lemma stateTurn_stores (k : string) (event : addr) (e : Event) :
  stores (λ s, fileStep k event s e)
    (assign (W:=W) event e;; updateRoom k event e;; notifyListeners e).
Proof.
  intros m t a m' Ht. unfold assign, updateRoom, mbind, Go_bind. simpl.
  rewrite Ht. intros Hrun.
  by destruct (notifyListeners_frame _ _ _ _ Hrun) as [-> ->].
Qed.

Lemma timelineTurn_stores (event : addr) (e : Event) :
  stores (λ s, holdStep event s e)
    (assign (W:=W) event e;; notifyListeners e).
Proof.
  intros m t a m' Ht. unfold assign, mbind, Go_bind. simpl.
  intros Hrun.
  by destruct (notifyListeners_frame _ _ _ _ Hrun) as [-> ->].
Qed.

Lemma newVar_stores m (t : gmap string Room) (event : addr) m1 :
  Rooms (syncer m) = Some t →
  newVar m = (Returned event, m1) →
  event = freshIn (t, heap m) ∧
  Rooms (syncer m1) = Some t ∧ heap m1 = (declare (t, heap m)).2.
Proof.
  intros Ht. unfold newVar, addressesInUse, freshIn, declare. rewrite Ht.
  by intros [= <- <-].
Qed.

Lemma stores_stateLoop (k : string) (events : list Event) :
  stores (stateLoopStore k events) (stateLoop (W:=W) k k events).
Proof.
  intros m t a m' Ht Hrun. unfold stateLoop, mbind at 1, Go_bind at 1 in Hrun.
  destruct (newVar m) as [[event|p] m1] eqn:Hnew; [|done].
  destruct (newVar_stores _ _ _ _ Ht Hnew) as (-> & Ht1 & Hh1).
  unfold stateLoopStore.
  pose proof (stores_forEach (fileStep k (freshIn (t, heap m))) _ _
                (stateTurn_stores k (freshIn (t, heap m)))
                _ _ _ _ Ht1 Hrun) as Hloop.
  rewrite Hh1 in Hloop. exact Hloop.
Qed.

Lemma stores_timelineLoop (k : string) (events : list Event) :
  stores (timelineLoopStore k events) (timelineLoop (W:=W) k events).
Proof.
  intros m t a m' Ht Hrun.
  unfold timelineLoop, mbind at 1, Go_bind at 1 in Hrun.
  destruct (newVar m) as [[event|p] m1] eqn:Hnew; [|done].
  destruct (newVar_stores _ _ _ _ Ht Hnew) as (-> & Ht1 & Hh1).
  unfold timelineLoopStore.
  pose proof (stores_forEach (holdStep (freshIn (t, heap m))) _ _
                (timelineTurn_stores (freshIn (t, heap m)))
                _ _ _ _ Ht1 Hrun) as Hloop.
  rewrite Hh1 in Hloop. exact Hloop.
Qed.

Lemma stores_processJoin (order : list string) r :
  stores (λ s, foldl (joinStore r) s order) (processJoin (W:=W) order r).
Proof.
  unfold processJoin.
  apply (stores_forRange (Join r)
           (λ k rd s, timelineLoopStore k (TimelineEvents rd)
                        (stateLoopStore k (StateEvents rd) (ensureRoom k s)))).
  intros k rd Hk.
  apply (stores_bind (ensureRoom k)
           (λ s, timelineLoopStore k (TimelineEvents rd)
                   (stateLoopStore k (StateEvents rd) s)));
    [apply stores_getOrCreateRoom|].
  intros room m0 m1 ->%getOrCreateRoom_ptr.
  apply (stores_bind (stateLoopStore k (StateEvents rd))
           (timelineLoopStore k (TimelineEvents rd))).
  - eapply stores_ext; [apply stateLoop_run | apply stores_stateLoop].
  - intros _ _ _ _.
    eapply stores_ext; [apply timelineLoop_run | apply stores_timelineLoop].
Qed.

Lemma stores_processInvite (order : list string) r :
  stores (λ s, foldl (inviteStore r) s order) (processInvite (W:=W) order r).
Proof.
  unfold processInvite.
  apply (stores_forRange (Invite r)
           (λ k rd s, stateLoopStore k (InviteStateEvents rd) (ensureRoom k s))).
  intros k rd Hk.
  apply (stores_bind (ensureRoom k) (stateLoopStore k (InviteStateEvents rd)));
    [apply stores_getOrCreateRoom|].
  intros room m0 m1 ->%getOrCreateRoom_ptr.
  eapply stores_ext; [apply stateLoop_run | apply stores_stateLoop].
Qed.

Lemma stores_processRooms sched r :
  stores (reduceStore sched r) (processRooms (W:=W) sched (Some r)).
Proof.
  unfold processRooms, reduceStore.
  apply (stores_bind (λ s, foldl (joinStore r) s (joinOrder sched))
           (λ s, foldl (inviteStore r) s (inviteOrder sched))).
  - apply stores_processJoin.
  - intros _ _ _ _. apply stores_processInvite.
Qed.

Lemma stateOf_readStore m (t : gmap string Room) (j : string)
    (key : string * string) :
  Rooms (syncer m) = Some t → stateOf m j key = readStore (t, heap m) j key.
Proof. intros Ht. unfold stateOf, readStore, lookupRoom. by rewrite Ht. Qed.

Lemma no_turn_plain sched r :
  range_order (Join r) (joinOrder sched) →
  range_order (Invite r) (inviteOrder sched) →
  hasTurn (Join r) (joinOrder sched) || hasTurn (Invite r) (inviteOrder sched)
    = false →
  ∀ j, Join r !! j = None ∧ Invite r !! j = None.
Proof.
  intros Hjo Hio [Hj Hi]%orb_false_iff j.
  split; by eapply no_turn_no_entry.
Qed.

(** What the rooms read after lines 61-81 return. *)
Lemma processRooms_reads sched r m (u : unit) m' (j : string)
    (key : string * string) :
  range_order (Join r) (joinOrder sched) →
  range_order (Invite r) (inviteOrder sched) →
  processRooms sched (Some r) m = (Returned u, m') →
  stateOf m' j key = aliasedState r j key (stateOf m j key).
Proof.
  intros Hjo Hio Hrun. destruct (Rooms (syncer m)) as [t|] eqn:Ht.
  - destruct (stores_processRooms sched r m t u m' Ht Hrun) as [Ht' Hh'].
    rewrite (stateOf_readStore m' _ j key Ht'), Hh'.
    rewrite (stateOf_readStore m t j key Ht).
    destruct (reduceStore sched r (t, heap m)) as [t' h'] eqn:Hred. simpl.
    rewrite <- Hred. by apply readStore_reduceStore.
  - rewrite processRooms_nil_table in Hrun by done.
    destruct (_ || _) eqn:Hturn; [done|]. injection Hrun as _ <-.
    destruct (no_turn_plain sched r Hjo Hio Hturn j) as [Hj Hi].
    unfold aliasedState, invitedState, joinedState. by rewrite Hj, Hi.
Qed.

(** The rooms of the table after lines 61-81 return. *)
Lemma processRooms_names sched r m (u : unit) m' (j : string) :
  range_order (Join r) (joinOrder sched) →
  range_order (Invite r) (inviteOrder sched) →
  processRooms sched (Some r) m = (Returned u, m') →
  ID <$> lookupRoom (syncer m') j =
  ensured (named r j) j (ID <$> lookupRoom (syncer m) j).
Proof.
  intros Hjo Hio Hrun. destruct (Rooms (syncer m)) as [t|] eqn:Ht.
  - destruct (stores_processRooms sched r m t u m' Ht Hrun) as [Ht' _].
    unfold lookupRoom. rewrite Ht', Ht.
    by apply (roomName_reduceStore sched r (t, heap m) j).
  - rewrite processRooms_nil_table in Hrun by done.
    destruct (_ || _) eqn:Hturn; [done|]. injection Hrun as _ <-.
    destruct (no_turn_plain sched r Hjo Hio Hturn j) as [Hj Hi].
    unfold named. rewrite Hj, Hi.
    by rewrite bool_decide_false by (by intros [? ?]).
Qed.


End Reducer.

(** ** The claims *)

Section Properties.

Context {W : Type}.
Variable stack : string.

Implicit Types (s : DefaultSyncer W) (m : Machine W) (sched : Schedule).
Implicit Types (r : RespSync) (res : option RespSync).
Implicit Types (ls : gmap string (list (OnEventListener W))).

Lemma dispatchPlan_RoomID ls (roomID : string) (events : list Event)
    (fn : OnEventListener W) (ev : Event) :
  (fn, ev) ∈ dispatchPlan ls (setRoomID roomID <$> events) → RoomID ev = roomID.
Proof.
  unfold dispatchPlan. rewrite list_elem_of_bind.
  intros (e & He & Hin). apply list_elem_of_fmap in He as (fn' & [= -> ->] & _).
  apply list_elem_of_fmap in Hin as (e0 & -> & _). done.
Qed.

Lemma responsePlan_RoomID ls (sched : Schedule) (r : RespSync)
    (fn : OnEventListener W) (ev : Event) :
  (fn, ev) ∈ responsePlan ls sched r →
  is_Some (Join r !! RoomID ev) ∨ is_Some (Invite r !! RoomID ev).
Proof.
  unfold responsePlan. rewrite elem_of_app, !list_elem_of_bind.
  intros [(k & Hin & _)|(k & Hin & _)].
  - left. unfold joinPlan in Hin.
    destruct (Join r !! k) as [rd|] eqn:Hk; [|by apply elem_of_nil in Hin].
    apply elem_of_app in Hin as [Hin|Hin];
      apply dispatchPlan_RoomID in Hin as ->; eauto.
  - right. unfold invitePlan in Hin.
    destruct (Invite r !! k) as [rd|] eqn:Hk; [|by apply elem_of_nil in Hin].
    apply dispatchPlan_RoomID in Hin as ->; eauto.
Qed.

Lemma dispatchPlan_elem_of (ls : gmap string (list (OnEventListener W)))
    (k : string) (events : list Event) (fn : OnEventListener W) (ev : Event) :
  (fn, ev) ∈ dispatchPlan ls (setRoomID k <$> events) →
  ∃ e0 fns, e0 ∈ events ∧ ev = setRoomID k e0 ∧
            ls !! Type_ ev = Some fns ∧ fn ∈ fns.
Proof.
  unfold dispatchPlan. rewrite list_elem_of_bind.
  intros (e & He & Hin).
  apply list_elem_of_fmap in Hin as (e0 & -> & He0).
  apply list_elem_of_fmap in He as (fn' & [= -> ->] & Hfn).
  simpl in *. destruct (ls !! Type_ e0) as [fns|] eqn:Hls; simpl in Hfn.
  - by exists e0, fns.
  - by apply elem_of_nil in Hfn.
Qed.

Lemma dispatchPlan_sole_listener ls (fn : OnEventListener W)
    (events : list Event) :
  (∀ e, e ∈ events → ls !! Type_ e = Some [fn]) →
  dispatchPlan ls events = (λ e, (fn, e)) <$> events.
Proof.
  induction events as [|e events IH]; intros Hsole; [done|].
  rewrite dispatchPlan_cons, dispatchPlan_one, fmap_cons.
  rewrite (Hsole e) by (apply elem_of_cons; left; reflexivity).
  simpl. f_equal. apply IH. intros e' He'. apply Hsole, elem_of_cons. by right.
Qed.

Lemma responsePlan_registered ls sched r (fn : OnEventListener W) (ev : Event) :
  (fn, ev) ∈ responsePlan ls sched r →
  ∃ fns, ls !! Type_ ev = Some fns ∧ fn ∈ fns.
Proof.
  unfold responsePlan. rewrite elem_of_app, !list_elem_of_bind.
  intros [(k & Hin & _)|(k & Hin & _)].
  - unfold joinPlan in Hin.
    destruct (Join r !! k) as [rd|]; [|by apply elem_of_nil in Hin].
    apply elem_of_app in Hin as [Hin|Hin];
      apply dispatchPlan_elem_of in Hin as (e0 & fns & _ & _ & Hls & Hfn);
      eauto.
  - unfold invitePlan in Hin.
    destruct (Invite r !! k) as [rd|]; [|by apply elem_of_nil in Hin].
    apply dispatchPlan_elem_of in Hin as (e0 & fns & _ & _ & Hls & Hfn).
    eauto.
Qed.

Lemma shouldProcessResponse_Some s (order : list string) r (since : string) :
  since ≠ "" →
  shouldProcessResponse s order (Some r) since =
    (Returned true, Some (foldl (scanRoom (UserID s)) r order)).
Proof.
  intros Hs. unfold shouldProcessResponse.
  destruct (String.eqb_spec since ""); [done | done].
Qed.


Lemma scan_fold_removed (userID : string) (order : list string)
    (r : RespSync) (roomID : string) (roomData : JoinedRoom) :
  range_order (Join r) order →
  Join r !! roomID = Some roomData →
  hasSelfJoin userID (TimelineEvents roomData) = true →
  Join (foldl (scanRoom userID) r order) !! roomID = None ∧
  Invite (foldl (scanRoom userID) r order) !! roomID = None.
Proof.
  intros Hord Hroom Hjoin.
  destruct (scan_fold_lookup userID order r roomID) as [-> ->].
  rewrite bool_decide_true by (eapply range_order_elem_of; eauto).
  unfold suppressed. by rewrite Hroom, Hjoin.
Qed.

Lemma ProcessResponse_run sched r (since : string) m :
  since ≠ "" →
  let r' := foldl (scanRoom (UserID (syncer m))) r (scanOrder sched) in
  response (ProcessResponse stack sched (Some r) since m) = Some r' ∧
  machine (ProcessResponse stack sched (Some r) since m)
    = snd (processRooms sched (Some r') m) ∧
  result (ProcessResponse stack sched (Some r) since m) =
    match fst (processRooms sched (Some r') m) with
    | Returned _ => Returned None
    | Panicked p =>
      Returned (Some (panicError stack (UserID (syncer m)) since p))
    end.
Proof.
  intros Hsince r'. unfold ProcessResponse.
  rewrite shouldProcessResponse_Some by done. fold r'.
  destruct (processRooms sched (Some r') m) as [[u|p] m'] eqn:Hrun; simpl.
  - done.
  - repeat split.
    by destruct (processRooms_run _ _ _ _ _ Hrun) as (_ & _ & _ & _ & ->).
Qed.

Lemma ProcessResponse_reduce sched r (since : string) m :
  since ≠ "" →
  let r' := foldl (scanRoom (UserID (syncer m))) r (scanOrder sched) in
  response (ProcessResponse stack sched (Some r) since m) = Some r' ∧
  result (ProcessResponse stack sched (Some r) since m) =
    Returned (panicError stack (UserID (syncer m)) since
                <$> reducerFault m sched r') ∧
  calls (machine (ProcessResponse stack sched (Some r) since m)) =
    calls m ++ reducerCalls m sched r' ∧
  world (machine (ProcessResponse stack sched (Some r) since m)) =
    worldAfter (reducerCalls m sched r') (world m).
Proof.
  intros Hsince r'.
  destruct (ProcessResponse_run sched r since m Hsince) as (Hresp & Hm & Hres).
  fold r' in Hresp, Hm, Hres. rewrite Hm, Hres. split; [done|].
  destruct (processRooms sched (Some r') m) as [res m'] eqn:Hrun. simpl.
  destruct (processRooms_run _ _ _ _ _ Hrun) as (-> & Hcalls & Hworld & _).
  split; [|done]. by destruct (reducerFault m sched r').
Qed.

(** C7. The default failure policy: for every response and error,
    [OnFailedSync] answers a wait of 10 seconds (10^10 nanoseconds, which
    fits an int64) and no terminal error. *)
Theorem OnFailedSync_always_retries s res (err : option error) :
  OnFailedSync s res err = ((10 * Second)%Z, None) ∧
  fst (OnFailedSync s res err) = 10000000000%Z ∧
  (- 2 ^ 63 ≤ fst (OnFailedSync s res err) < 2 ^ 63)%Z ∧
  snd (OnFailedSync s res err) = None.
Proof. repeat split; done. Qed.

(** C3. First sync: with the empty cursor, for every response (nil
    included), [ProcessResponse] returns a nil error and leaves the response
    and the whole machine as they were: the room table is unchanged and no
    listener is invoked. *)
Theorem ProcessResponse_first_sync sched res m :
  ProcessResponse stack sched res "" m =
    {| result := Returned None; response := res; machine := m |}.
Proof. reflexivity. Qed.

(** C9. A panic of [shouldProcessResponse] is raised before the deferred
    recovery is installed: [ProcessResponse] panics with the same value, no
    error is returned, and the machine is untouched. *)
Theorem ProcessResponse_scan_panic_escapes sched res (since : string) m
    (p : string) (res' : option RespSync) :
  shouldProcessResponse (syncer m) (scanOrder sched) res since
    = (Panicked p, res') →
  ProcessResponse stack sched res since m =
    {| result := Panicked p; response := res'; machine := m |}.
Proof. intros H. unfold ProcessResponse. by rewrite H. Qed.

(** C10. A membership event of the account whose content has no
    ["membership"] entry, or one that is not a string, is passed over: the
    scan goes on with the next older event, the scan of the timeline gives
    what it gives without that event, and the pass does not panic. *)
Theorem scan_skips_malformed_membership (userID roomID : string) (e : Event) :
  isSelfMember userID e = true →
  (∀ mship, Content e !! "membership" ≠ Some (VString mship)) →
  (∀ (events : list Event) (i : nat) r,
     events !! i = Some e →
     scanTimeline userID roomID events (S i) r =
     scanTimeline userID roomID events i r) ∧
  (∀ (older newer : list Event) r,
     scanTimeline userID roomID (older ++ e :: newer)
       (length (older ++ e :: newer)) r =
     scanTimeline userID roomID (older ++ newer)
       (length (older ++ newer)) r) ∧
  (∀ s (order : list string) r (since : string),
     ∃ (b : bool) r',
       shouldProcessResponse s order (Some r) since = (Returned b, Some r')).
Proof.
  intros Hself Hm. split; [|split].
  - intros events i r Hi. simpl. rewrite Hi, Hself.
    destruct (Content e !! "membership") as [[| | |mship| |]|] eqn:Hc;
      try done.
    by destruct (Hm mship).
  - intros older newer r. rewrite !scanTimeline_spec, !take_ge by lia.
    rewrite hasSelfJoin_skip; [done|].
    unfold isSelfJoin. rewrite Hself. simpl.
    destruct (Content e !! "membership") as [[| | |mship| |]|] eqn:Hc;
      try done.
    by destruct (Hm mship).
  - intros s order r since. unfold shouldProcessResponse.
    destruct (String.eqb since ""); eauto.
Qed.

(** C2 (as the code has it). For a joined room that the pass visits, the
    room is removed exactly when its timeline holds a membership event of
    the account whose membership is the string ["join"], wherever it stands;
    otherwise the room is kept as it is.  In the backward scan a membership
    event of the account with another membership does not stop the scan (the
    next older event is looked at), and one with ["join"] ends it. *)
Theorem scan_removes_iff_some_self_join s (order : list string) r
    (since roomID : string) (roomData : JoinedRoom) :
  since ≠ "" →
  range_order (Join r) order →
  Join r !! roomID = Some roomData →
  ∃ r',
    shouldProcessResponse s order (Some r) since = (Returned true, Some r') ∧
    Join r' !! roomID =
      (if hasSelfJoin (UserID s) (TimelineEvents roomData) then None
       else Some roomData) ∧
    (∀ (i : nat) (e : Event) (resp : RespSync),
       TimelineEvents roomData !! i = Some e →
       isSelfMember (UserID s) e = true →
       isSelfJoin (UserID s) e = false →
       scanTimeline (UserID s) roomID (TimelineEvents roomData) (S i) resp =
       scanTimeline (UserID s) roomID (TimelineEvents roomData) i resp) ∧
    (∀ (i : nat) (e : Event) (resp : RespSync),
       TimelineEvents roomData !! i = Some e →
       isSelfJoin (UserID s) e = true →
       is_Some (Join resp !! roomID) →
       scanTimeline (UserID s) roomID (TimelineEvents roomData) (S i) resp =
       removeRoom roomID resp).
Proof.
  intros Hsince Hord Hroom.
  assert (Hcover := λ k, range_order_elem_of (Join r) order k Hord).
  eexists. split; [by apply shouldProcessResponse_Some|].
  split; [|split].
  - destruct (scan_fold_lookup (UserID s) order r roomID) as [-> _].
    rewrite bool_decide_true by (apply Hcover; eauto).
    unfold suppressed. rewrite Hroom. simpl.
    by destruct (hasSelfJoin _ _).
  - intros i e resp Hi Hself Hjoin. simpl. rewrite Hi, Hself.
    unfold isSelfJoin in Hjoin. rewrite Hself in Hjoin. simpl in Hjoin.
    destruct (Content e !! "membership") as [[| | |mship| |]|]; try done.
    by rewrite Hjoin.
  - intros i e resp Hi Hjoin [rd Hrd]. simpl. rewrite Hi.
    unfold isSelfJoin in Hjoin. apply andb_true_iff in Hjoin as [-> Hjoin].
    destruct (Content e !! "membership") as [[| | |mship| |]|]; try done.
    by rewrite Hjoin, Hrd.
Qed.

(** C8. The caller's response is changed in place: when the timeline of a
    joined room holds a membership event of the account with membership
    ["join"], the response behind [res] has lost the room in both maps when
    [ProcessResponse] ends, however the call ends; the entries of the rooms
    the rule does not fire for stay. *)
Theorem ProcessResponse_mutates_response sched r (since roomID : string) m
    (roomData : JoinedRoom) :
  since ≠ "" →
  range_order (Join r) (scanOrder sched) →
  Join r !! roomID = Some roomData →
  hasSelfJoin (UserID (syncer m)) (TimelineEvents roomData) = true →
  ∃ r',
    response (ProcessResponse stack sched (Some r) since m) = Some r' ∧
    Join r' !! roomID = None ∧
    Invite r' !! roomID = None ∧
    (∀ k, suppressed (UserID (syncer m)) r k = false →
          Join r' !! k = Join r !! k ∧ Invite r' !! k = Invite r !! k).
Proof.
  intros Hsince Hord Hroom Hjoin.
  assert (Hcover := λ k, range_order_elem_of (Join r) (scanOrder sched) k Hord).
  exists (foldl (scanRoom (UserID (syncer m))) r (scanOrder sched)).
  split.
  - unfold ProcessResponse. rewrite shouldProcessResponse_Some by done.
    by destruct (processRooms _ _ _) as [[?|?] ?].
  - assert (suppressed (UserID (syncer m)) r roomID = true) as Hsup.
    { unfold suppressed. by rewrite Hroom. }
    destruct (scan_fold_lookup (UserID (syncer m)) (scanOrder sched) r roomID)
      as [-> ->].
    rewrite bool_decide_true by (apply Hcover; eauto).
    rewrite Hsup. simpl. split; [done|]. split; [done|].
    intros k Hk.
    destruct (scan_fold_lookup (UserID (syncer m)) (scanOrder sched) r k)
      as [-> ->].
    by rewrite Hk, andb_false_r.
Qed.

(** C1. A joined room whose most recent membership event of the account in
    the timeline has membership ["join"] is dropped: when the cursor is not
    empty the response loses the room in both maps before the reducer's
    loops run, and in every case the room's entry of the table is what it
    was and reads what it read (no state event merged, no room created) and
    no listener is invoked with an event of that room. *)
Theorem rejoined_room_is_dropped sched r (since roomID : string) m
    (roomData : JoinedRoom) (e : Event) :
  range_order (Join r) (scanOrder sched) →
  Join r !! roomID = Some roomData →
  mostRecentSelfMember (UserID (syncer m)) (TimelineEvents roomData) = Some e →
  Content e !! "membership" = Some (VString "join") →
  (since ≠ "" →
   ∃ r', response (ProcessResponse stack sched (Some r) since m) = Some r' ∧
         Join r' !! roomID = None ∧ Invite r' !! roomID = None ∧
         machine (ProcessResponse stack sched (Some r) since m)
           = snd (processRooms sched (Some r') m)) ∧
  lookupRoom (syncer (machine (ProcessResponse stack sched (Some r) since m)))
    roomID = lookupRoom (syncer m) roomID ∧
  (∀ key,
     stateOf (machine (ProcessResponse stack sched (Some r) since m)) roomID key
       = stateOf m roomID key) ∧
  ∃ new,
    calls (machine (ProcessResponse stack sched (Some r) since m))
      = calls m ++ new ∧
    ∀ fn ev, (fn, ev) ∈ new → RoomID ev ≠ roomID.
Proof.
  intros Hord Hroom Hrecent Hmship.
  pose proof (mostRecentSelfMember_join _ _ _ Hrecent Hmship) as Hjoin.
  destruct (scan_fold_removed _ _ _ _ _ Hord Hroom Hjoin) as [Hj Hi].
  destruct (String.eqb_spec since "") as [->|Hsince].
  { split; [done|]. simpl. split; [done|]. split; [done|]. exists []. split.
    - by rewrite app_nil_r.
    - intros fn ev Hin. by apply elem_of_nil in Hin. }
  destruct (ProcessResponse_run sched r since m Hsince) as (Hresp & -> & _).
  split; [eauto 10|].
  destruct (processRooms sched _ m) as [res m'] eqn:Hrun. simpl.
  pose proof (sameRoom_processRooms roomID sched _ Hj Hi m res m' Logic.I Hrun)
    as Hsame.
  split; [apply Hsame|]. split.
  { intros key. by apply sameRoom_stateOf. }
  destruct (processRooms_run _ _ _ _ _ Hrun) as (_ & Hcalls & _).
  eexists. split; [exact Hcalls|]. intros fn ev Hin Hev.
  destruct (reducerCalls_prefix m sched
              (foldl (scanRoom (UserID (syncer m))) r (scanOrder sched)))
    as [rest Hplan].
  assert ((fn, ev) ∈ responsePlan (listeners (syncer m)) sched
            (foldl (scanRoom (UserID (syncer m))) r (scanOrder sched)))
    as Hplanned.
  { rewrite Hplan. apply elem_of_app. by left. }
  apply responsePlan_RoomID in Hplanned. rewrite Hev, Hj, Hi in Hplanned.
  by destruct Hplanned as [[? ?]|[? ?]].
Qed.

(** C4. Dispatch order.  With a non-empty cursor, the listeners a call
    runs are, in order: for each joined room as the range loop takes them,
    its state events in list order and then its timeline events in list
    order, each event going to the listeners of its type in the order of
    the type's listener list; then the state events of each invited room.
    Each listener is run on the world the one before it left, and the run
    ends with the first listener that panics (or at once, when the table is
    nil).  [OnEventType] appends, so the order of a type's list is the
    registration order; on a syncer whose listeners map is nil it panics
    instead.  A listener that is the one listener of every type among some
    events is invoked once per event, in list order. *)
Theorem dispatch_order sched r (since : string) m :
  since ≠ "" →
  (∃ r',
     response (ProcessResponse stack sched (Some r) since m) = Some r' ∧
     calls (machine (ProcessResponse stack sched (Some r) since m))
       = calls m ++ reducerCalls m sched r' ∧
     world (machine (ProcessResponse stack sched (Some r) since m))
       = worldAfter (reducerCalls m sched r') (world m) ∧
     reducerCalls m sched r'
       `prefix_of` responsePlan (listeners (syncer m)) sched r' ∧
     (result (ProcessResponse stack sched (Some r) since m) = Returned None →
      reducerCalls m sched r' = responsePlan (listeners (syncer m)) sched r') ∧
     (is_Some (Rooms (syncer m)) →
      reducerCalls m sched r' =
        executed (responsePlan (listeners (syncer m)) sched r') (world m)) ∧
     (∀ (roomID : string) (roomData : JoinedRoom),
        Join r' !! roomID = Some roomData →
        joinPlan (listeners (syncer m)) r' roomID =
          dispatchPlan (listeners (syncer m))
            (setRoomID roomID <$> StateEvents roomData) ++
          dispatchPlan (listeners (syncer m))
            (setRoomID roomID <$> TimelineEvents roomData))) ∧
  (∀ (eventType : string) (callback : OnEventListener W) s,
     match listenersMap s with
     | None =>
       OnEventType eventType callback s = (Panicked nilMapAssignment, s)
     | Some _ =>
       ∃ s', OnEventType eventType callback s = (Returned tt, s') ∧
             listeners s' !! eventType =
               Some (default [] (listeners s !! eventType) ++ [callback])
     end) ∧
  (∀ ls (fn : OnEventListener W) (roomID : string) (events : list Event),
     (∀ e, e ∈ events → ls !! Type_ e = Some [fn]) →
     dispatchPlan ls (setRoomID roomID <$> events) =
       (λ e, (fn, setRoomID roomID e)) <$> events).
Proof.
  intros Hsince. split; [|split].
  - destruct (ProcessResponse_reduce sched r since m Hsince)
      as (Hresp & Hres & Hcalls & Hworld).
    eexists. split; [exact Hresp|]. split; [exact Hcalls|].
    split; [exact Hworld|]. split; [apply reducerCalls_prefix|].
    split; [|split].
    + rewrite Hres. intros Hnone. apply reducerCalls_full.
      by destruct (reducerFault m sched _).
    + intros [t Ht]. unfold reducerCalls. by rewrite Ht.
    + intros roomID roomData Hroom. unfold joinPlan. by rewrite Hroom.
  - intros eventType callback s. unfold OnEventType, listeners.
    destruct (listenersMap s) as [ls0|]; [|done].
    eexists. split; [done|]. simpl. rewrite lookup_insert_eq.
    destruct (ls0 !! eventType) as [fns|] eqn:Hfns; simpl;
      by rewrite ?Hfns, ?lookup_insert_eq.
  - intros ls fn roomID events Hsole.
    rewrite (dispatchPlan_sole_listener ls fn).
    + by rewrite <- list_fmap_compose.
    + intros e (e0 & -> & He0)%list_elem_of_fmap. simpl. by apply Hsole.
Qed.

(** C6. The recovery boundary.  With a non-empty cursor and a response that
    is not nil, [ProcessResponse] returns.  Its error is nil when lines
    61-81 run without a fault, and otherwise the error of line 57 with the
    user identifier, the cursor and the panic value of the fault: the value
    of the first listener of the dispatch order that panics when run on the
    world the listeners before it left, or, with a nil table, that of the
    write to the table at the first room.  The listeners before the fault
    have run and those after it have not. *)
Theorem ProcessResponse_recovers sched r (since : string) m :
  since ≠ "" →
  ∃ r',
    response (ProcessResponse stack sched (Some r) since m) = Some r' ∧
    result (ProcessResponse stack sched (Some r) since m) =
      Returned ((λ p, "ProcessResponse panicked! userID="
                      +:+ UserID (syncer m) +:+ " since=" +:+ since
                      +:+ " panic=" +:+ p +:+ newline +:+ stack)
                  <$> reducerFault m sched r') ∧
    calls (machine (ProcessResponse stack sched (Some r) since m))
      = calls m ++ reducerCalls m sched r' ∧
    world (machine (ProcessResponse stack sched (Some r) since m))
      = worldAfter (reducerCalls m sched r') (world m) ∧
    (∀ (before after : list (OnEventListener W * Event))
       (fn : OnEventListener W) (ev : Event) (p : string),
       is_Some (Rooms (syncer m)) →
       responsePlan (listeners (syncer m)) sched r'
         = before ++ (fn, ev) :: after →
       firstPanic before (world m) = None →
       fst (fn ev (worldAfter before (world m))) = Panicked p →
       reducerFault m sched r' = Some p ∧
       reducerCalls m sched r' = before ++ [(fn, ev)]) ∧
    (Rooms (syncer m) = None →
     hasTurn (Join r') (joinOrder sched) ||
       hasTurn (Invite r') (inviteOrder sched) = true →
     reducerFault m sched r' = Some nilMapAssignment ∧
     machine (ProcessResponse stack sched (Some r) since m) = m).
Proof.
  intros Hsince.
  destruct (ProcessResponse_reduce sched r since m Hsince)
    as (Hresp & Hres & Hcalls & Hworld).
  eexists. split; [exact Hresp|]. split; [exact Hres|].
  split; [exact Hcalls|]. split; [exact Hworld|]. split.
  - intros before after fn ev p [t Ht] Hplan Hbefore Hfn.
    unfold reducerFault, reducerCalls. rewrite Ht, Hplan.
    rewrite firstPanic_app, executed_app, Hbefore. simpl.
    destruct (fn ev (worldAfter before (world m))) as [r0 w'].
    simpl in Hfn. by subst r0.
  - intros Hnil Hturn. unfold reducerFault. rewrite Hnil, Hturn.
    split; [done|].
    destruct (ProcessResponse_run sched r since m Hsince) as (_ & -> & _).
    by rewrite processRooms_nil_table.
Qed.

End Properties.

(** ** More on the replay-suppression pass *)

Lemma RespSync_eq (a b : RespSync) :
  Join a = Join b → Invite a = Invite b → a = b.
Proof. destruct a, b. simpl. by intros -> ->. Qed.

Lemma scan_fold_unsuppressed (userID : string) (order : list string)
    (r : RespSync) :
  (∀ k, k ∈ order → suppressed userID r k = false) →
  foldl (scanRoom userID) r order = r.
Proof.
  intros Hnone. apply RespSync_eq; apply map_eq; intros k;
    destruct (scan_fold_lookup userID order r k) as [Hj Hi];
    rewrite ?Hj, ?Hi; clear Hj Hi;
    (case_bool_decide as Hin; [by rewrite (Hnone k Hin) | done]).
Qed.

Lemma scan_fold_suppressed_after (userID : string) (order : list string)
    (r : RespSync) (k : string) :
  range_order (Join r) order →
  suppressed userID (foldl (scanRoom userID) r order) k = false.
Proof.
  intros Hord. unfold suppressed at 1.
  destruct (scan_fold_lookup userID order r k) as [-> _].
  destruct (bool_decide (k ∈ order)) eqn:Hin; simpl.
  - destruct (suppressed userID r k) eqn:Hs; [done|]. exact Hs.
  - destruct (Join r !! k) as [rd|] eqn:Hk; [|done].
    apply bool_decide_eq_false in Hin. destruct Hin.
    eapply range_order_elem_of; eauto.
Qed.

(** X1. The answer of the pass does not depend on the order in which the range
    loop takes the rooms. *)
Theorem shouldProcessResponse_order_irrelevant {W : Type} (s : DefaultSyncer W)
    (order1 order2 : list string) (r : RespSync) (since : string) :
  range_order (Join r) order1 →
  range_order (Join r) order2 →
  shouldProcessResponse s order1 (Some r) since =
  shouldProcessResponse s order2 (Some r) since.
Proof.
  intros H1 H2. unfold shouldProcessResponse.
  destruct (String.eqb since ""); [done|]. do 2 f_equal.
  assert (∀ k, bool_decide (k ∈ order1) = bool_decide (k ∈ order2)) as Hsame.
  { intros k. apply bool_decide_ext.
    by rewrite (range_order_elem_of _ _ k H1), (range_order_elem_of _ _ k H2). }
  apply RespSync_eq; apply map_eq; intros k;
    destruct (scan_fold_lookup (UserID s) order1 r k) as [Hj1 Hi1];
    destruct (scan_fold_lookup (UserID s) order2 r k) as [Hj2 Hi2];
    rewrite ?Hj1, ?Hi1, ?Hj2, ?Hi2; by rewrite Hsame.
Qed.

(** X2. The pass is idempotent: run again on the response it left, in any
    order, it gives the same answer and leaves the response as it is. *)
Theorem shouldProcessResponse_idempotent {W : Type} (s : DefaultSyncer W)
    (order order' : list string) (r : RespSync) (since : string) :
  range_order (Join r) order →
  ∃ (b : bool) (r' : RespSync),
    shouldProcessResponse s order (Some r) since = (Returned b, Some r') ∧
    shouldProcessResponse s order' (Some r') since = (Returned b, Some r').
Proof.
  intros Hord. unfold shouldProcessResponse.
  destruct (String.eqb since ""); [by exists false, r|].
  eexists _, _. split; [done|]. do 2 f_equal.
  apply scan_fold_unsuppressed. intros k _.
  by apply scan_fold_suppressed_after.
Qed.

(** X3. The pass only removes entries.  On a response that is not nil it
    returns, with [true] exactly when the cursor is not empty.  What it
    leaves is the response minus the removed rooms: entries that stay are unchanged, an invited room
    that is not a joined room stays, and when no joined room has a join of
    the account in its timeline the response is left as it was. *)
Theorem shouldProcessResponse_only_removes {W : Type} (s : DefaultSyncer W)
    (order : list string) (r : RespSync) (since : string) :
  ∃ (b : bool) (r' : RespSync),
    shouldProcessResponse s order (Some r) since = (Returned b, Some r') ∧
    (b = true ↔ since ≠ "") ∧
    Join r' ⊆ Join r ∧ Invite r' ⊆ Invite r ∧
    (∀ k, Join r !! k = None → Invite r' !! k = Invite r !! k) ∧
    (∀ k, is_Some (Join r' !! k) ↔
          is_Some (Join r !! k) ∧
          ¬ (since ≠ "" ∧ k ∈ order ∧ suppressed (UserID s) r k = true)) ∧
    ((∀ k roomData, Join r !! k = Some roomData →
        hasSelfJoin (UserID s) (TimelineEvents roomData) = false) → r' = r).
Proof.
  unfold shouldProcessResponse.
  destruct (String.eqb_spec since "") as [->|Hsince].
  { exists false, r. split; [done|]. split; [by split|].
    do 3 (split; [done|]). split; [|done].
    intros k. split; [|by intros [? _]].
    intros Hsome. split; [done|]. intros (Hne & _). by apply Hne. }
  exists true, (foldl (scanRoom (UserID s)) r order).
  split; [done|]. split; [by split|]. split; [|split; [|split; [|split]]].
  - apply map_subseteq_spec. intros k v.
    destruct (scan_fold_lookup (UserID s) order r k) as [-> _].
    by destruct (_ && _).
  - apply map_subseteq_spec. intros k v.
    destruct (scan_fold_lookup (UserID s) order r k) as [_ ->].
    by destruct (_ && _).
  - intros k Hk.
    destruct (scan_fold_lookup (UserID s) order r k) as [_ ->].
    unfold suppressed. rewrite Hk. by rewrite andb_false_r.
  - intros k.
    destruct (scan_fold_lookup (UserID s) order r k) as [-> _].
    case_bool_decide as Hin; simpl.
    + destruct (suppressed (UserID s) r k) eqn:Hs.
      * split; [by intros [? ?]|]. intros [_ Hno]. by destruct Hno.
      * split; [|by intros [? _]]. intros Hsome. split; [done|].
        by intros (_ & _ & ?).
    + split; [|by intros [? _]]. intros Hsome. split; [done|].
      by intros (_ & ? & _).
  - intros Hnone. apply scan_fold_unsuppressed. intros k _.
    unfold suppressed. destruct (Join r !! k) as [rd|] eqn:Hk; [|done].
    by apply (Hnone k rd).
Qed.

(** ** The in-memory stores *)

Lemma find_app' {A : Type} (f : A → bool) (l1 l2 : list A) :
  find f (l1 ++ l2) =
  match find f l1 with
  | Some x => Some x
  | None => find f l2
  end.
Proof. induction l1 as [|x l1 IH]; simpl; [done|]. by destruct (f x). Qed.

Lemma lastSaved_cons (userID u b : string) (saves : list (string * string)) :
  lastSaved userID ((u, b) :: saves) =
  match lastSaved userID saves with
  | Some b' => Some b'
  | None => if String.eqb u userID then Some b else None
  end.
Proof.
  unfold lastSaved. simpl. rewrite find_app'.
  destruct (find _ (rev saves)); simpl; [done|].
  by destruct (String.eqb u userID).
Qed.

(** X4. A run of saves on a store whose map is not nil returns, and then each
    user's token is the one saved last for that user in the run, or the
    token the store had when the run has none for the user. *)
Theorem saveNextBatches_loads_last (saves : list (string * string))
    (s : InMemoryNextBatchStore) :
  is_Some (UserToNextBatch s) →
  ∃ s', saveNextBatches saves s = (Returned tt, s') ∧
        is_Some (UserToNextBatch s') ∧
        ∀ userID, LoadNextBatch userID s' =
                  default (LoadNextBatch userID s) (lastSaved userID saves).
Proof.
  revert s. induction saves as [|[u b] saves IH]; intros s Hsome.
  - exists s. by repeat split.
  - destruct Hsome as [tokens Ht]. simpl. unfold SaveNextBatch. rewrite Ht.
    destruct (IH {| UserToNextBatch := Some (<[u := b]> tokens) |})
      as (s' & Hrun & Hsome' & Hload); [by eexists|].
    exists s'. split; [done|]. split; [done|].
    intros userID. rewrite Hload, lastSaved_cons.
    destruct (lastSaved userID saves); [done|]. simpl.
    unfold LoadNextBatch. simpl. rewrite Ht.
    destruct (String.eqb_spec u userID) as [->|Hne]; simpl.
    + by rewrite lookup_insert_eq.
    + by rewrite lookup_insert_ne.
Qed.

(** X5. The edges of the token store.  [LoadNextBatch] answers the empty string
    exactly when the user has no entry (the map may be nil) or an empty
    token was saved, so the two cannot be told apart; [SaveNextBatch]
    panics exactly when the map is nil, and then leaves the store. *)
Theorem NextBatchStore_edges (userID nextBatch : string)
    (s : InMemoryNextBatchStore) :
  (LoadNextBatch userID s = "" ↔
     ∀ tokens, UserToNextBatch s = Some tokens →
               tokens !! userID = None ∨ tokens !! userID = Some "") ∧
  (fst (SaveNextBatch userID nextBatch s) = Panicked nilMapAssignment ↔
     UserToNextBatch s = None) ∧
  (UserToNextBatch s = None →
     SaveNextBatch userID nextBatch s = (Panicked nilMapAssignment, s)) ∧
  (is_Some (UserToNextBatch s) →
     fst (SaveNextBatch userID nextBatch s) = Returned tt).
Proof.
  unfold LoadNextBatch, SaveNextBatch.
  destruct (UserToNextBatch s) as [tokens|] eqn:Ht; simpl.
  - split; [|split; [|split]]; try done.
    split.
    + intros Hload tokens' [= <-].
      destruct (tokens !! userID) as [b|]; simpl in *; [right | left];
        congruence.
    + intros Hcases. destruct (Hcases tokens eq_refl) as [-> | ->]; done.
  - split; [|split; [|split]]; try done; by intros [? ?].
Qed.

(** X6. The filter store: a saved filter identifier is loaded back and the
    other users keep theirs; the filter definition is the same for every
    user and is not changed by saving identifiers. *)
Theorem FilterStore_save_load (userID filterID : string)
    (s : InMemoryFilterStore) :
  is_Some (UserToFilter s) →
  ∃ s', SaveFilter userID filterID s = (Returned tt, s') ∧
        LoadFilter userID s' = filterID ∧
        (∀ other, other ≠ userID → LoadFilter other s' = LoadFilter other s) ∧
        (∀ u u', GetFilterJSON u s' = GetFilterJSON u' s).
Proof.
  intros [filters Hf]. unfold SaveFilter, LoadFilter, GetFilterJSON.
  rewrite Hf. eexists. split; [done|]. simpl. split; [|split].
  - by rewrite lookup_insert_eq.
  - intros other Hne. by rewrite lookup_insert_ne.
  - done.
Qed.

(** ** Registering and notifying listeners *)


Section MoreProperties.

Context {W : Type}.
Variable stack : string.

Implicit Types (s : DefaultSyncer W) (m : Machine W) (sched : Schedule).
Implicit Types (r : RespSync) (res : option RespSync).
Implicit Types (ls : gmap string (list (OnEventListener W))).

Lemma OnEventType_run (eventType : string) (callback : OnEventListener W) s
    (ls0 : gmap string (list (OnEventListener W))) :
  listenersMap s = Some ls0 →
  ∃ s', OnEventType eventType callback s = (Returned tt, s') ∧
        is_Some (listenersMap s') ∧
        listeners s' !! eventType =
          Some (default [] (listeners s !! eventType) ++ [callback]) ∧
        (∀ other, other ≠ eventType →
           listeners s' !! other = listeners s !! other) ∧
        UserID s' = UserID s ∧ Rooms s' = Rooms s.
Proof.
  intros Hls. unfold OnEventType, listeners. rewrite Hls.
  eexists. split; [done|]. simpl. split; [eauto|]. split; [|split; [|done]].
  - rewrite lookup_insert_eq.
    destruct (ls0 !! eventType) as [fns|] eqn:Hfns; simpl;
      by rewrite ?Hfns, ?lookup_insert_eq.
  - intros other Hne. rewrite lookup_insert_ne by done.
    destruct (ls0 !! eventType); [done|]. by rewrite lookup_insert_ne.
Qed.

(** X7. [OnEventType] has no duplicate check and keeps the order.  On a
    syncer whose listeners map is not nil, a run of registrations for a
    type returns, and the listeners of the type are then the earlier ones
    followed by the callbacks in the order given, repetitions included; the
    other types, the user identifier and the table are as before.  On a
    syncer whose listeners map is nil (one built as a struct literal) the
    first registration panics at the write of line 89 and the syncer is
    left as it was. *)
Theorem OnEventType_appends_in_order (eventType : string)
    (callbacks : list (OnEventListener W)) s :
  match listenersMap s with
  | None =>
    registerAll eventType callbacks s =
      (match callbacks with
       | [] => Returned tt
       | _ :: _ => Panicked nilMapAssignment
       end, s)
  | Some _ =>
    ∃ s',
      registerAll eventType callbacks s = (Returned tt, s') ∧
      default [] (listeners s' !! eventType) =
        default [] (listeners s !! eventType) ++ callbacks ∧
      (callbacks ≠ [] → is_Some (listeners s' !! eventType)) ∧
      (∀ other, other ≠ eventType →
         listeners s' !! other = listeners s !! other) ∧
      UserID s' = UserID s ∧
      Rooms s' = Rooms s
  end.
Proof.
  destruct (listenersMap s) as [ls0|] eqn:Hls.
  - revert s ls0 Hls.
    induction callbacks as [|cb callbacks IH]; intros s ls0 Hls; simpl.
    + exists s. rewrite app_nil_r. by repeat split.
    + destruct (OnEventType_run eventType cb s ls0 Hls)
        as (s1 & -> & [ls1 Hls1] & Hl1 & Ho1 & Hu1 & Hr1).
      destruct (IH s1 ls1 Hls1) as (s' & -> & Hl & Hs & Ho & Hu & Hr).
      exists s'. split; [done|]. rewrite Hl, Hl1. simpl.
      split; [by rewrite <- app_assoc|]. split.
      * intros _. destruct callbacks as [|cb' callbacks]; [|by apply Hs].
        simpl in Hl. rewrite Hl1 in Hl. simpl in Hl.
        destruct (listeners s' !! eventType); [eauto|].
        simpl in Hl. by destruct (default [] (listeners s !! eventType)).
      * split; [|by rewrite Hu, Hr].
        intros other Hne. by rewrite Ho, Ho1.
  - destruct callbacks as [|cb callbacks]; [done|]. simpl.
    unfold OnEventType. by rewrite Hls.
Qed.

Lemma forEach_app {A : Type} (l1 l2 : list A) (body : A → Go W unit) m :
  forEach (l1 ++ l2) body m =
  match forEach l1 body m with
  | (Returned _, m1) => forEach l2 body m1
  | (Panicked p, m1) => (Panicked p, m1)
  end.
Proof.
  revert m. induction l1 as [|x l1 IH]; intros m; simpl; [done|].
  unfold mbind, Go_bind. destruct (body x m) as [[[]|p] m1]; [apply IH|done].
Qed.

Lemma invokeAll_return (fns : list (OnEventListener W)) (e : Event) m :
  (∀ fn w, fn ∈ fns → fst (fn e w) = Returned tt) →
  forEach fns (λ fn, invoke fn e) m =
  (Returned tt,
   {| syncer := syncer m; heap := heap m;
      world := runListeners fns e (world m);
      calls := calls m ++ ((λ fn, (fn, e)) <$> fns) |}).
Proof.
  revert m. induction fns as [|fn fns IH]; intros m Hret; simpl.
  - rewrite app_nil_r. by destruct m.
  - unfold mbind, Go_bind, invoke at 1.
    pose proof (Hret fn (world m) ltac:(apply elem_of_cons; by left)) as Hfn.
    destruct (fn e (world m)) as [r0 w] eqn:Hrun. simpl in Hfn. subst r0.
    rewrite IH.
    + simpl. by rewrite <- app_assoc.
    + intros g w' Hg. apply Hret, elem_of_cons. by right.
Qed.

(** X8. When every listener of the event's type returns, [notifyListeners]
    returns after invoking each of them once, in the order of the list; the
    world is the one they leave and the syncer and the event variables are
    untouched.  For a type without listeners nothing happens at all. *)
Theorem notifyListeners_all_return (e : Event) m :
  (∀ fn w, fn ∈ default [] (listeners (syncer m) !! Type_ e) →
           fst (fn e w) = Returned tt) →
  notifyListeners e m =
    (Returned tt,
     {| syncer := syncer m; heap := heap m;
        world := runListeners (default [] (listeners (syncer m) !! Type_ e))
                   e (world m);
        calls := calls m ++
                 ((λ fn, (fn, e)) <$>
                    default [] (listeners (syncer m) !! Type_ e)) |}) ∧
  (default [] (listeners (syncer m) !! Type_ e) = [] →
   notifyListeners e m = (Returned tt, m)).
Proof.
  intros Hret. unfold notifyListeners.
  destruct (listeners (syncer m) !! Type_ e) as [fns|]; simpl in *.
  - rewrite invokeAll_return by done. split; [done|].
    intros ->. simpl. rewrite app_nil_r. by destruct m.
  - rewrite app_nil_r. by destruct m.
Qed.

(** X9. A panic of a listener ends the dispatch of the event: the listeners
    registered before it have run, it has been invoked, and the listeners
    registered after it are not invoked. *)
Theorem notifyListeners_stops_at_panic (e : Event) m
    (before after : list (OnEventListener W)) (fn : OnEventListener W)
    (p : string) :
  listeners (syncer m) !! Type_ e = Some (before ++ fn :: after) →
  (∀ g w, g ∈ before → fst (g e w) = Returned tt) →
  fst (fn e (runListeners before e (world m))) = Panicked p →
  notifyListeners e m =
    (Panicked p,
     {| syncer := syncer m; heap := heap m;
        world := snd (fn e (runListeners before e (world m)));
        calls := calls m ++ ((λ g, (g, e)) <$> (before ++ [fn])) |}).
Proof.
  intros Hls Hbefore Hfn. unfold notifyListeners. rewrite Hls.
  rewrite forEach_app, invokeAll_return by done. simpl.
  unfold mbind, Go_bind, invoke at 1. simpl.
  destruct (fn e (runListeners before e (world m))) as [r0 w] eqn:Hrun.
  simpl in Hfn. subst r0. simpl.
  by rewrite fmap_app, <- app_assoc.
Qed.

(** X10. [getOrCreateRoom] on a table that is not nil returns the room's
    pointer; the room is the one the table had, or a new room without state
    when it had none; the other rooms, the event variables, the world and
    the listeners are not touched, and a second call changes nothing. *)
Theorem getOrCreateRoom_idempotent (k : string) m :
  is_Some (Rooms (syncer m)) →
  ∃ m1,
    getOrCreateRoom k m = (Returned k, m1) ∧
    lookupRoom (syncer m1) k
      = Some (default (NewRoom k) (lookupRoom (syncer m) k)) ∧
    (∀ j, j ≠ k → lookupRoom (syncer m1) j = lookupRoom (syncer m) j) ∧
    world m1 = world m ∧ calls m1 = calls m ∧ heap m1 = heap m ∧
    listeners (syncer m1) = listeners (syncer m) ∧
    UserID (syncer m1) = UserID (syncer m) ∧
    getOrCreateRoom k m1 = (Returned k, m1).
Proof.
  intros [t Ht]. unfold getOrCreateRoom, lookupRoom. rewrite Ht.
  destruct (t !! k) as [room|] eqn:Hk.
  - exists m. rewrite Ht, Hk. by repeat split.
  - eexists. split; [done|]. simpl. rewrite lookup_insert_eq.
    repeat split; try done.
    intros j Hj. by rewrite lookup_insert_ne.
Qed.

Lemma ProcessResponse_machine sched res (since : string) m :
  machine (ProcessResponse stack sched res since m) = m ∨
  ∃ res',
    machine (ProcessResponse stack sched res since m)
      = snd (processRooms sched res' m).
Proof.
  unfold ProcessResponse.
  destruct (shouldProcessResponse _ _ _ _) as [[[|]|p] res']; simpl; auto.
  right. exists res'. by destruct (processRooms sched res' m) as [[u|p] m'].
Qed.

(** X11. [ProcessResponse] never destroys a room and never renames one: however
    the call ends, every room of the table is still there under its key
    with its identifier, a table whose rooms are filed under their own
    identifiers stays so, a nil table stays nil and a table that is not nil
    stays so, and the user identifier and the listeners are unchanged. *)
Theorem ProcessResponse_keeps_rooms sched res (since : string) m :
  (∀ (k : string) (room : Room),
     lookupRoom (syncer m) k = Some room →
     ∃ room',
       lookupRoom (syncer (machine (ProcessResponse stack sched res since m))) k
         = Some room' ∧
       ID room' = ID room) ∧
  (keyed (syncer m) →
   keyed (syncer (machine (ProcessResponse stack sched res since m)))) ∧
  (is_Some (Rooms (syncer (machine (ProcessResponse stack sched res since m))))
   ↔ is_Some (Rooms (syncer m))) ∧
  UserID (syncer (machine (ProcessResponse stack sched res since m)))
    = UserID (syncer m) ∧
  listeners (syncer (machine (ProcessResponse stack sched res since m)))
    = listeners (syncer m).
Proof.
  assert (grows m (machine (ProcessResponse stack sched res since m))) as Hg.
  { destruct (ProcessResponse_machine sched res since m) as [->|[res' ->]].
    - apply grows_refl.
    - destruct (processRooms sched res' m) as [r0 m'] eqn:Hrun.
      by apply (grows_processRooms sched res' _ _ _ Logic.I Hrun). }
  destruct Hg as (Hu & Hl & Hn & Hr & Hk).
  split; [done|]. split; [done|]. split; [done|]. by split.
Qed.

(** X12. [ProcessResponse] touches only the rooms the response names: the table
    entry of a room that is in neither map of the response is left as it
    is (none stays none) and reads what it read, however the call ends. *)
Theorem ProcessResponse_touches_only_named_rooms sched r (since k : string) m :
  Join r !! k = None →
  Invite r !! k = None →
  lookupRoom (syncer (machine (ProcessResponse stack sched (Some r) since m))) k
    = lookupRoom (syncer m) k ∧
  ∀ key,
    stateOf (machine (ProcessResponse stack sched (Some r) since m)) k key
      = stateOf m k key.
Proof.
  intros Hj Hi.
  destruct (String.eqb_spec since "") as [->|Hsince]; [done|].
  destruct (ProcessResponse_run stack sched r since m Hsince) as (_ & -> & _).
  destruct (processRooms sched _ m) as [r0 m'] eqn:Hrun. simpl.
  assert (sameRoom k m m') as Hsame.
  { revert Hrun. apply sameRoom_processRooms; [| |done].
    - destruct (scan_fold_lookup (UserID (syncer m)) (scanOrder sched) r k)
        as [-> _].
      rewrite Hj. by destruct (_ && _).
    - destruct (scan_fold_lookup (UserID (syncer m)) (scanOrder sched) r k)
        as [_ ->].
      rewrite Hi. by destruct (_ && _). }
  split; [apply Hsame|]. intros key. by apply sameRoom_stateOf.
Qed.

(** X13. The only faults of the reducer are a listener that panics and a nil
    table.  With a table that is not nil and listeners that all return,
    [ProcessResponse] returns a nil error for every response that is not
    nil and every cursor, and with a non-empty cursor every invocation of
    the dispatch order has been made. *)
Theorem ProcessResponse_no_fault sched r (since : string) m :
  is_Some (Rooms (syncer m)) →
  quiet (listeners (syncer m)) →
  result (ProcessResponse stack sched (Some r) since m) = Returned None ∧
  (since ≠ "" →
   ∃ r',
     response (ProcessResponse stack sched (Some r) since m) = Some r' ∧
     calls (machine (ProcessResponse stack sched (Some r) since m)) =
       calls m ++ responsePlan (listeners (syncer m)) sched r').
Proof.
  intros [t Ht] Hquiet.
  destruct (String.eqb_spec since "") as [->|Hsince]; [by split|].
  destruct (ProcessResponse_reduce stack sched r since m Hsince)
    as (Hresp & Hres & Hcalls & _).
  set (r' := foldl _ r _) in *.
  assert (reducerFault m sched r' = None) as Hnone.
  { unfold reducerFault. rewrite Ht. apply (firstPanic_quiet (listeners (syncer m))).
    intros fn e w' Hin.
    apply responsePlan_registered in Hin as (fns & Hfns & Hfn).
    by eapply Hquiet. }
  rewrite Hres, Hcalls, Hnone. split; [done|]. intros _. exists r'.
  split; [done|]. by rewrite reducerCalls_full.
Qed.

(** X14. A syncer whose table is nil (one built without [NewDefaultSyncer]):
    with a non-empty cursor the call fails at the first room it has to
    process, before any listener is invoked, with the error that reports
    the assignment to a nil map; the machine is left as it was.  It returns
    a nil error only when the response has no room left to process. *)
Theorem ProcessResponse_nil_table sched r (since : string) m :
  Rooms (syncer m) = None →
  since ≠ "" →
  ∃ r',
    response (ProcessResponse stack sched (Some r) since m) = Some r' ∧
    machine (ProcessResponse stack sched (Some r) since m) = m ∧
    result (ProcessResponse stack sched (Some r) since m) =
      if hasTurn (Join r') (joinOrder sched) ||
         hasTurn (Invite r') (inviteOrder sched)
      then Returned (Some (panicError stack (UserID (syncer m)) since
                             nilMapAssignment))
      else Returned None.
Proof.
  intros Hnil Hsince.
  destruct (ProcessResponse_run stack sched r since m Hsince)
    as (Hresp & Hm & Hres).
  eexists. split; [exact Hresp|]. rewrite Hm, Hres. clear Hm Hres Hresp.
  rewrite processRooms_nil_table by done. simpl.
  by destruct (_ || _).
Qed.

(** ** The table after a call that returns *)

(** X15. The table after a call that returns no error (non-empty cursor).
    The table has exactly the rooms it had and the rooms the response still
    names, a new room under its key as identifier.  What the state of a
    room reads follows from the loops filing the address of their one loop
    variable: every pair of a state event of the joined entry reads the
    last state event of that entry, stamped with the room, whatever the
    pair of that last event is; the pairs of the invited entry read the
    last state event of the invited entry; every other pair reads what it
    read before.  Timeline events take no part. *)
Theorem ProcessResponse_table sched r (since : string) m (r' : RespSync) :
  since ≠ "" →
  result (ProcessResponse stack sched (Some r) since m) = Returned None →
  response (ProcessResponse stack sched (Some r) since m) = Some r' →
  range_order (Join r') (joinOrder sched) →
  range_order (Invite r') (inviteOrder sched) →
  (∀ k key,
     stateOf (machine (ProcessResponse stack sched (Some r) since m)) k key
       = aliasedState r' k key (stateOf m k key)) ∧
  (∀ k,
     is_Some (lookupRoom
                (syncer (machine (ProcessResponse stack sched (Some r) since m)))
                k) ↔
     is_Some (lookupRoom (syncer m) k) ∨ is_Some (Join r' !! k) ∨
     is_Some (Invite r' !! k)) ∧
  (∀ k room',
     lookupRoom (syncer (machine (ProcessResponse stack sched (Some r) since m)))
       k = Some room' →
     ID room' = ID (default (NewRoom k) (lookupRoom (syncer m) k))) ∧
  (∀ k (roomData : JoinedRoom) (e final : Event),
     Join r' !! k = Some roomData → Invite r' !! k = None →
     e ∈ StateEvents roomData →
     last (StateEvents roomData) = Some final →
     stateOf (machine (ProcessResponse stack sched (Some r) since m)) k
       (keyOf e) = Some (setRoomID k final)) ∧
  (∀ k (roomData : InvitedRoom) (e final : Event),
     Invite r' !! k = Some roomData →
     e ∈ InviteStateEvents roomData →
     last (InviteStateEvents roomData) = Some final →
     stateOf (machine (ProcessResponse stack sched (Some r) since m)) k
       (keyOf e) = Some (setRoomID k final)).
Proof.
  intros Hsince Hres Hresp Hjo Hio.
  destruct (ProcessResponse_run stack sched r since m Hsince)
    as (Hresp' & Hm & Hres').
  rewrite Hresp' in Hresp. injection Hresp as Hr'. rewrite Hr' in Hm, Hres'.
  rewrite Hm. rewrite Hres' in Hres. clear Hm Hres' Hresp' Hr'.
  destruct (processRooms sched (Some r') m) as [[u|p] m'] eqn:Hrun;
    simpl in *; [|done].
  assert (∀ k key, stateOf m' k key = aliasedState r' k key (stateOf m k key))
    as Hreads by (intros; by eapply processRooms_reads).
  assert (∀ k, ID <$> lookupRoom (syncer m') k =
               ensured (named r' k) k (ID <$> lookupRoom (syncer m) k))
    as Hnames by (intros; by eapply processRooms_names).
  split; [done|]. split; [|split; [|split]].
  - intros k. specialize (Hnames k). unfold named, ensured in Hnames.
    rewrite <- !(fmap_is_Some ID (lookupRoom _ k)), Hnames.
    destruct (Join r' !! k) as [rd|], (Invite r' !! k) as [ird|];
      rewrite ?(bool_decide_true (is_Some (Some _))) by eauto;
      rewrite ?(bool_decide_false (is_Some None)) by (by intros [? ?]);
      simpl; split; eauto.
    intros [?|[[? [=]]|[? [=]]]]. done.
  - intros k room' Hroom'. specialize (Hnames k). rewrite Hroom' in Hnames.
    unfold ensured in Hnames. simpl in Hnames.
    destruct (lookupRoom (syncer m) k) as [room|]; simpl in *;
      destruct (named r' k); congruence.
  - intros k rd e final Hk Hinv He Hlast. rewrite Hreads.
    unfold aliasedState, invitedState, joinedState. rewrite Hk, Hinv. simpl.
    destruct (filedBy_in k (StateEvents rd) (keyOf e)) as (e' & He' & ->).
    { apply list_elem_of_fmap. eauto. }
    simpl. congruence.
  - intros k ird e final Hinv He Hlast. rewrite Hreads.
    unfold aliasedState, invitedState. rewrite Hinv.
    destruct (filedBy_in k (InviteStateEvents ird) (keyOf e)) as (e' & He' & ->).
    { apply list_elem_of_fmap. eauto. }
    simpl. congruence.
Qed.


(** X17. A syncer fresh from [NewDefaultSyncer] has a table and no listeners: on
    any response that is not nil it returns a nil error, invokes nothing
    and leaves the world as it is, and with a non-empty cursor it ends with
    exactly the rooms the response still names, each under its key as
    identifier, where every pair of a state event of an entry reads the
    last state event of that entry (the invited entry's after the joined
    entry's) and no other pair reads anything. *)
Theorem NewDefaultSyncer_first_response (userID : string)
    (h : gmap addr Event) (w : W) sched r (since : string) :
  let m := mkMachine (NewDefaultSyncer userID) h w [] in
  result (ProcessResponse stack sched (Some r) since m) = Returned None ∧
  calls (machine (ProcessResponse stack sched (Some r) since m)) = [] ∧
  world (machine (ProcessResponse stack sched (Some r) since m)) = w ∧
  (since ≠ "" →
   ∃ r',
     response (ProcessResponse stack sched (Some r) since m) = Some r' ∧
     (range_order (Join r') (joinOrder sched) →
      range_order (Invite r') (inviteOrder sched) →
      (∀ k key,
         stateOf (machine (ProcessResponse stack sched (Some r) since m)) k key
           = aliasedState r' k key None) ∧
      (∀ k,
         ID <$> lookupRoom
                  (syncer (machine (ProcessResponse stack sched (Some r) since m)))
                  k
         = if named r' k then Some k else None))).
Proof.
  intros m.
  destruct (String.eqb_spec since "") as [->|Hsince]; [by repeat split|].
  destruct (ProcessResponse_reduce stack sched r since m Hsince)
    as (Hresp & Hres & Hcalls & Hworld).
  destruct (ProcessResponse_run stack sched r since m Hsince) as (_ & Hm & _).
  set (r' := foldl _ r _) in *.
  assert (responsePlan (listeners (syncer m)) sched r' = []) as Hplan.
  { apply elem_of_nil_inv. intros [fn ev] Hin.
    apply responsePlan_registered in Hin as (fns & Hfns & _).
    unfold listeners in Hfns. simpl in Hfns. by rewrite lookup_empty in Hfns. }
  assert (reducerFault m sched r' = None) as Hnone.
  { assert (Rooms (syncer m) = Some ∅) as Ht by done.
    unfold reducerFault. by rewrite Ht, Hplan. }
  assert (reducerCalls m sched r' = []) as Hnocalls.
  { by rewrite (reducerCalls_full _ _ _ Hnone). }
  rewrite Hres, Hcalls, Hworld, Hnone, Hnocalls. simpl.
  split; [done|]. split; [done|]. split; [done|].
  intros _. exists r'. split; [done|]. intros Hjo Hio. rewrite Hm.
  destruct (processRooms sched (Some r') m) as [res m'] eqn:Hrun. simpl.
  destruct (processRooms_run _ _ _ _ _ Hrun) as (-> & _).
  rewrite Hnone in Hrun. split.
  - intros k key.
    by rewrite (processRooms_reads sched r' m tt m' k key Hjo Hio Hrun).
  - intros k.
    rewrite (processRooms_names sched r' m tt m' k Hjo Hio Hrun).
    unfold lookupRoom. simpl. rewrite lookup_empty. simpl.
    by destruct (named r' k).
Qed.

(** X18. What reaches a listener.  Whatever the cursor and however the call
    ends, every invocation [ProcessResponse] makes hands a listener
    registered for the event's type an event of the response, with its room
    identifier set to the room it was listed under and nothing else
    changed: a state or timeline event of a joined room, or a state event
    of an invited room. *)
Theorem ProcessResponse_dispatches_only_response_events sched r
    (since : string) m :
  ∃ new,
    calls (machine (ProcessResponse stack sched (Some r) since m))
      = calls m ++ new ∧
    ∀ (fn : OnEventListener W) (ev : Event),
      (fn, ev) ∈ new →
      (∃ fns, listeners (syncer m) !! Type_ ev = Some fns ∧ fn ∈ fns) ∧
      ∃ (k : string) (e0 : Event),
        ev = setRoomID k e0 ∧
        ((∃ roomData, Join r !! k = Some roomData ∧
                      (e0 ∈ StateEvents roomData ∨
                       e0 ∈ TimelineEvents roomData)) ∨
         (∃ roomData, Invite r !! k = Some roomData ∧
                      e0 ∈ InviteStateEvents roomData)).
Proof.
  destruct (String.eqb_spec since "") as [->|Hsince].
  { exists []. split; [by rewrite app_nil_r|].
    intros fn ev Hin. by apply elem_of_nil in Hin. }
  destruct (ProcessResponse_reduce stack sched r since m Hsince)
    as (_ & _ & Hcalls & _).
  set (r' := foldl _ r _) in *.
  assert (∀ k v, Join r' !! k = Some v → Join r !! k = Some v) as Hjoin.
  { intros k v. unfold r'.
    destruct (scan_fold_lookup (UserID (syncer m)) (scanOrder sched) r k)
      as [-> _].
    by destruct (_ && _). }
  assert (∀ k v, Invite r' !! k = Some v → Invite r !! k = Some v) as Hinvite.
  { intros k v. unfold r'.
    destruct (scan_fold_lookup (UserID (syncer m)) (scanOrder sched) r k)
      as [_ ->].
    by destruct (_ && _). }
  eexists. split; [exact Hcalls|]. intros fn ev Hin.
  destruct (reducerCalls_prefix m sched r') as [rest Hplan].
  assert ((fn, ev) ∈ responsePlan (listeners (syncer m)) sched r') as Hplanned.
  { rewrite Hplan. apply elem_of_app. by left. }
  unfold responsePlan in Hplanned.
  apply elem_of_app in Hplanned as [Hp|Hp];
    apply list_elem_of_bind in Hp as (k & Hp & _).
  - unfold joinPlan in Hp.
    destruct (Join r' !! k) as [rd|] eqn:Hk; [|by apply elem_of_nil in Hp].
    apply Hjoin in Hk.
    apply elem_of_app in Hp as [Hp|Hp];
      apply dispatchPlan_elem_of in Hp as (e0 & fns & He0 & -> & Hls & Hfn);
      (split; [by exists fns|]); exists k, e0; (split; [done|]); left;
      exists rd; auto.
  - unfold invitePlan in Hp.
    destruct (Invite r' !! k) as [ird|] eqn:Hk; [|by apply elem_of_nil in Hp].
    apply Hinvite in Hk.
    apply dispatchPlan_elem_of in Hp as (e0 & fns & He0 & -> & Hls & Hfn).
    split; [by exists fns|]. exists k, e0. split; [done|]. right.
    exists ird. auto.
Qed.

End MoreProperties.

(** ** The instance: scenarios and the theorems at concrete inputs *)

(** First sync: nothing happens. *)
Example first_sync_scenario :
  ProcessResponse "stack" oneRoom (Some plainResponse) "" botMachine =
    mkOutcome (Returned None) (Some plainResponse) botMachine.
Proof. reflexivity. Qed.

(** An incremental sync: the room is created, its name reads the later of
    the two name events (the last state event of the list), and the
    listeners are called for the two names and then the message. *)
Example incremental_sync_scenario :
  let out := ProcessResponse "stack" oneRoom (Some plainResponse) "s1" botMachine in
  result out = Returned None ∧
  world (machine out) =
    ["first m.room.name !r:example.org"; "first m.room.name !r:example.org";
     "first m.room.message !r:example.org";
     "second m.room.message !r:example.org"] ∧
  stateOf (machine out) room1 ("m.room.name", "") =
    Some (setRoomID room1 (nameEvent "Test again")).
Proof. vm_compute. repeat split; reflexivity. Qed.

(** A listener that panics: the error of line 57 is returned. *)
Example faulty_listener_scenario :
  result (ProcessResponse "stack" oneRoom (Some plainResponse) "s1" faultyMachine)
  = Returned (Some ("ProcessResponse panicked! userID=@bot:example.org since=s1 panic=boom"
                    +:+ newline +:+ "stack")).
Proof. vm_compute. reflexivity. Qed.

(** C5 (the code departs from the claim).  The state events of [room1] are
    two name events followed by a topic event.  After the call the state of
    the room holds, for the name pair and for the topic pair, one and the
    same address, that of the variable of the loop of lines 63-67, so the
    name pair reads the topic event and not the later of the two name
    events.  The timeline event is not in the state. *)
Theorem state_merge_files_loop_variable :
  let out := ProcessResponse "stack" oneRoom (Some renamedResponse) "s1"
               botMachine in
  result out = Returned None ∧
  (Join renamedResponse !! room1 ≫= λ roomData, Some (StateEvents roomData)) =
    Some [nameEvent "Test"; nameEvent "Test again"; topicEvent "News"] ∧
  stateOf (machine out) room1 ("m.room.name", "") =
    Some (setRoomID room1 (topicEvent "News")) ∧
  stateOf (machine out) room1 ("m.room.name", "") ≠
    Some (setRoomID room1 (nameEvent "Test again")) ∧
  stateOf (machine out) room1 ("m.room.topic", "") =
    Some (setRoomID room1 (topicEvent "News")) ∧
  (lookupRoom (syncer (machine out)) room1 ≫= λ room,
     State room !! ("m.room.name", "")) = Some 0 ∧
  (lookupRoom (syncer (machine out)) room1 ≫= λ room,
     State room !! ("m.room.topic", "")) = Some 0 ∧
  stateOf (machine out) room1 ("m.room.message", "") = None.
Proof.
  intros out. unfold out.
  repeat split; try (vm_compute; reflexivity).
  vm_compute. discriminate.
Qed.

Lemma rejoined_room_is_dropped_witness :
  (("s1" : string) ≠ "" →
   ∃ r', response (ProcessResponse "stack" twoRooms (Some rejoinedResponse) "s1"
                     botMachine) = Some r' ∧
         Join r' !! room1 = None ∧ Invite r' !! room1 = None ∧
         machine (ProcessResponse "stack" twoRooms (Some rejoinedResponse) "s1"
                    botMachine)
           = snd (processRooms twoRooms (Some r') botMachine)) ∧
  lookupRoom (syncer (machine (ProcessResponse "stack" twoRooms
                                 (Some rejoinedResponse) "s1" botMachine)))
    room1 = lookupRoom (syncer botMachine) room1 ∧
  (∀ key,
     stateOf (machine (ProcessResponse "stack" twoRooms (Some rejoinedResponse)
                         "s1" botMachine)) room1 key
       = stateOf botMachine room1 key) ∧
  ∃ new,
    calls (machine (ProcessResponse "stack" twoRooms (Some rejoinedResponse)
                      "s1" botMachine))
      = calls botMachine ++ new ∧
    ∀ fn ev, (fn, ev) ∈ new → RoomID ev ≠ room1.
Proof.
  apply (rejoined_room_is_dropped "stack" twoRooms rejoinedResponse "s1" room1
           botMachine rejoinedRoom (memberEvent bot (VString "join"))).
  - vm_compute. reflexivity.
  - vm_compute. reflexivity.
  - vm_compute. reflexivity.
  - vm_compute. reflexivity.
Defined.

(** C2 as the claim words it fails.  In [leftRoom] the first membership
    event of the account that the backward scan meets is the leave, yet the
    scan goes on to the older join and the room is removed. *)
Lemma first_self_member_decides_counterexample :
  Join leftResponse !! room1 = Some leftRoom ∧
  mostRecentSelfMember bot (TimelineEvents leftRoom)
    = Some (memberEvent bot (VString "leave")) ∧
  Content (memberEvent bot (VString "leave")) !! "membership"
    = Some (VString "leave") ∧
  scanTimeline bot room1 (TimelineEvents leftRoom) 3 leftResponse
    = scanTimeline bot room1 (TimelineEvents leftRoom) 2 leftResponse ∧
  ∃ r',
    shouldProcessResponse botSyncer [room1] (Some leftResponse) "s1"
      = (Returned true, Some r') ∧
    Join r' !! room1 = None.
Proof.
  repeat split; try (vm_compute; reflexivity).
  eexists. split; vm_compute; reflexivity.
Qed.

Lemma scan_removes_iff_some_self_join_witness :
  ∃ r',
    shouldProcessResponse botSyncer [room1] (Some leftResponse) "s1"
      = (Returned true, Some r') ∧
    Join r' !! room1 =
      (if hasSelfJoin (UserID botSyncer) (TimelineEvents leftRoom) then None
       else Some leftRoom) ∧
    (∀ (i : nat) (e : Event) (resp : RespSync),
       TimelineEvents leftRoom !! i = Some e →
       isSelfMember (UserID botSyncer) e = true →
       isSelfJoin (UserID botSyncer) e = false →
       scanTimeline (UserID botSyncer) room1 (TimelineEvents leftRoom) (S i) resp =
       scanTimeline (UserID botSyncer) room1 (TimelineEvents leftRoom) i resp) ∧
    (∀ (i : nat) (e : Event) (resp : RespSync),
       TimelineEvents leftRoom !! i = Some e →
       isSelfJoin (UserID botSyncer) e = true →
       is_Some (Join resp !! room1) →
       scanTimeline (UserID botSyncer) room1 (TimelineEvents leftRoom) (S i) resp =
       removeRoom room1 resp).
Proof.
  apply (scan_removes_iff_some_self_join botSyncer [room1] leftResponse "s1"
           room1 leftRoom).
  - discriminate.
  - vm_compute. reflexivity.
  - vm_compute. reflexivity.
Defined.

(** The dispatch order at [plainResponse]: the log the listeners wrote, and
    a registration on a syncer built as a struct literal. *)
Lemma dispatch_order_witness :
  ((∃ r',
      response (ProcessResponse "stack" oneRoom (Some plainResponse) "s1"
                  botMachine) = Some r' ∧
      calls (machine (ProcessResponse "stack" oneRoom (Some plainResponse) "s1"
                        botMachine))
        = calls botMachine ++ reducerCalls botMachine oneRoom r' ∧
      world (machine (ProcessResponse "stack" oneRoom (Some plainResponse) "s1"
                        botMachine))
        = worldAfter (reducerCalls botMachine oneRoom r') (world botMachine) ∧
      reducerCalls botMachine oneRoom r'
        `prefix_of` responsePlan (listeners (syncer botMachine)) oneRoom r' ∧
      (result (ProcessResponse "stack" oneRoom (Some plainResponse) "s1"
                 botMachine) = Returned None →
       reducerCalls botMachine oneRoom r'
         = responsePlan (listeners (syncer botMachine)) oneRoom r') ∧
      (is_Some (Rooms (syncer botMachine)) →
       reducerCalls botMachine oneRoom r' =
         executed (responsePlan (listeners (syncer botMachine)) oneRoom r')
           (world botMachine)) ∧
      (∀ (roomID : string) (roomData : JoinedRoom),
         Join r' !! roomID = Some roomData →
         joinPlan (listeners (syncer botMachine)) r' roomID =
           dispatchPlan (listeners (syncer botMachine))
             (setRoomID roomID <$> StateEvents roomData) ++
           dispatchPlan (listeners (syncer botMachine))
             (setRoomID roomID <$> TimelineEvents roomData))) ∧
   (∀ (eventType : string) (callback : OnEventListener (list string))
      (s : DefaultSyncer (list string)),
      match listenersMap s with
      | None =>
        OnEventType eventType callback s = (Panicked nilMapAssignment, s)
      | Some _ =>
        ∃ s', OnEventType eventType callback s = (Returned tt, s') ∧
              listeners s' !! eventType =
                Some (default [] (listeners s !! eventType) ++ [callback])
      end) ∧
   (∀ (ls : gmap string (list (OnEventListener (list string))))
      (fn : OnEventListener (list string)) (roomID : string)
      (events : list Event),
      (∀ e, e ∈ events → ls !! Type_ e = Some [fn]) →
      dispatchPlan ls (setRoomID roomID <$> events) =
        (λ e, (fn, setRoomID roomID e)) <$> events)) ∧
  world (machine (ProcessResponse "stack" oneRoom (Some plainResponse) "s1"
                    botMachine)) =
    ["first m.room.name !r:example.org"; "first m.room.name !r:example.org";
     "first m.room.message !r:example.org";
     "second m.room.message !r:example.org"] ∧
  calls (machine (ProcessResponse "stack" oneRoom (Some plainResponse) "s1"
                    botMachine)) =
    [(logger "first", setRoomID room1 (nameEvent "Test"));
     (logger "first", setRoomID room1 (nameEvent "Test again"));
     (logger "first", setRoomID room1 (messageEvent "hi"));
     (logger "second", setRoomID room1 (messageEvent "hi"))] ∧
  OnEventType "m.room.message" (logger "first") literalSyncer =
    (Panicked nilMapAssignment, literalSyncer).
Proof.
  split.
  - apply (dispatch_order "stack" oneRoom plainResponse "s1" botMachine).
    discriminate.
  - split; [|split]; vm_compute; reflexivity.
Defined.

(** The recovery at [faultyMachine]: the third listener of the message
    panics, after the listeners before it have written their lines. *)
Lemma ProcessResponse_recovers_witness :
  (∃ r',
     response (ProcessResponse "stack" oneRoom (Some plainResponse) "s1"
                 faultyMachine) = Some r' ∧
     result (ProcessResponse "stack" oneRoom (Some plainResponse) "s1"
               faultyMachine) =
       Returned ((λ p, "ProcessResponse panicked! userID="
                       +:+ UserID (syncer faultyMachine) +:+ " since=" +:+ "s1"
                       +:+ " panic=" +:+ p +:+ newline +:+ "stack")
                   <$> reducerFault faultyMachine oneRoom r') ∧
     calls (machine (ProcessResponse "stack" oneRoom (Some plainResponse) "s1"
                       faultyMachine))
       = calls faultyMachine ++ reducerCalls faultyMachine oneRoom r' ∧
     world (machine (ProcessResponse "stack" oneRoom (Some plainResponse) "s1"
                       faultyMachine))
       = worldAfter (reducerCalls faultyMachine oneRoom r')
           (world faultyMachine) ∧
     (∀ (before after : list (OnEventListener (list string) * Event))
        (fn : OnEventListener (list string)) (ev : Event) (p : string),
        is_Some (Rooms (syncer faultyMachine)) →
        responsePlan (listeners (syncer faultyMachine)) oneRoom r'
          = before ++ (fn, ev) :: after →
        firstPanic before (world faultyMachine) = None →
        fst (fn ev (worldAfter before (world faultyMachine))) = Panicked p →
        reducerFault faultyMachine oneRoom r' = Some p ∧
        reducerCalls faultyMachine oneRoom r' = before ++ [(fn, ev)]) ∧
     (Rooms (syncer faultyMachine) = None →
      hasTurn (Join r') (joinOrder oneRoom) ||
        hasTurn (Invite r') (inviteOrder oneRoom) = true →
      reducerFault faultyMachine oneRoom r' = Some nilMapAssignment ∧
      machine (ProcessResponse "stack" oneRoom (Some plainResponse) "s1"
                 faultyMachine) = faultyMachine)) ∧
  reducerFault faultyMachine oneRoom plainResponse = Some "boom" ∧
  result (ProcessResponse "stack" oneRoom (Some plainResponse) "s1"
            faultyMachine) =
    Returned (Some ("ProcessResponse panicked! userID=@bot:example.org since=s1 panic=boom"
                    +:+ newline +:+ "stack")) ∧
  world (machine (ProcessResponse "stack" oneRoom (Some plainResponse) "s1"
                    faultyMachine)) =
    ["first m.room.name !r:example.org"; "first m.room.name !r:example.org";
     "first m.room.message !r:example.org";
     "second m.room.message !r:example.org"] ∧
  calls (machine (ProcessResponse "stack" oneRoom (Some plainResponse) "s1"
                    faultyMachine)) =
    [(logger "first", setRoomID room1 (nameEvent "Test"));
     (logger "first", setRoomID room1 (nameEvent "Test again"));
     (logger "first", setRoomID room1 (messageEvent "hi"));
     (logger "second", setRoomID room1 (messageEvent "hi"));
     (faulty, setRoomID room1 (messageEvent "hi"))] ∧
  result (ProcessResponse "stack" oneRoom (Some plainResponse) "s1"
            nilTableMachine) =
    Returned (Some ("ProcessResponse panicked! userID=@bot:example.org since=s1 panic=assignment to entry in nil map"
                    +:+ newline +:+ "stack")).
Proof.
  split.
  - apply (ProcessResponse_recovers "stack" oneRoom plainResponse "s1"
             faultyMachine).
    discriminate.
  - repeat split; vm_compute; reflexivity.
Defined.

Lemma ProcessResponse_mutates_response_witness :
  ∃ r',
    response (ProcessResponse "stack" twoRooms (Some rejoinedResponse) "s1"
                botMachine) = Some r' ∧
    Join r' !! room1 = None ∧
    Invite r' !! room1 = None ∧
    (∀ k, suppressed (UserID (syncer botMachine)) rejoinedResponse k = false →
          Join r' !! k = Join rejoinedResponse !! k ∧
          Invite r' !! k = Invite rejoinedResponse !! k).
Proof.
  apply (ProcessResponse_mutates_response "stack" twoRooms rejoinedResponse
           "s1" room1 botMachine rejoinedRoom).
  - discriminate.
  - vm_compute. reflexivity.
  - vm_compute. reflexivity.
  - vm_compute. reflexivity.
Defined.

Lemma ProcessResponse_scan_panic_escapes_witness :
  ProcessResponse "stack" oneRoom None "s1" botMachine =
    {| result := Panicked nilDereference; response := None;
       machine := botMachine |}.
Proof.
  apply (ProcessResponse_scan_panic_escapes "stack" oneRoom None "s1"
           botMachine nilDereference None).
  vm_compute. reflexivity.
Defined.

Lemma scan_skips_malformed_membership_witness :
  (∀ (events : list Event) (i : nat) (r : RespSync),
     events !! i = Some oddMember →
     scanTimeline bot room1 events (S i) r =
     scanTimeline bot room1 events i r) ∧
  (∀ (older newer : list Event) (r : RespSync),
     scanTimeline bot room1 (older ++ oddMember :: newer)
       (length (older ++ oddMember :: newer)) r =
     scanTimeline bot room1 (older ++ newer)
       (length (older ++ newer)) r) ∧
  (∀ (s : DefaultSyncer (list string)) (order : list string) (r : RespSync)
     (since : string),
     ∃ (b : bool) r',
       shouldProcessResponse s order (Some r) since = (Returned b, Some r')).
Proof.
  apply (scan_skips_malformed_membership (W := list string) bot room1 oddMember).
  - vm_compute. reflexivity.
  - intros mship. vm_compute. discriminate.
Defined.

(** The rejoined room is dropped, the other room is processed. *)
Example rejoined_scenario :
  let out := ProcessResponse "stack" twoRooms (Some rejoinedResponse) "s1" botMachine in
  result out = Returned None ∧
  response out = Some (mkRespSync {[ room2 := plainRoom ]} ∅) ∧
  world (machine out) =
    ["first m.room.name !s:example.org"; "first m.room.name !s:example.org";
     "first m.room.message !s:example.org";
     "second m.room.message !s:example.org"] ∧
  lookupRoom (syncer (machine out)) room1 = None.
Proof. vm_compute. repeat split; reflexivity. Qed.

(** ** The further properties at concrete inputs *)

Lemma shouldProcessResponse_order_irrelevant_witness :
  shouldProcessResponse botSyncer [room2; room1] (Some rejoinedResponse) "s1" =
  shouldProcessResponse botSyncer [room1; room2] (Some rejoinedResponse) "s1".
Proof.
  apply shouldProcessResponse_order_irrelevant.
  - vm_compute. reflexivity.
  - vm_compute. apply perm_swap.
Defined.

Lemma shouldProcessResponse_idempotent_witness :
  ∃ (b : bool) (r' : RespSync),
    shouldProcessResponse botSyncer [room2; room1] (Some rejoinedResponse) "s1"
      = (Returned b, Some r') ∧
    shouldProcessResponse botSyncer [room2] (Some r') "s1"
      = (Returned b, Some r').
Proof.
  apply shouldProcessResponse_idempotent.
  vm_compute. reflexivity.
Defined.

Lemma saveNextBatches_loads_last_witness :
  ∃ s', saveNextBatches [(bot, "s1"); ("@other:example.org", "t1"); (bot, "s2")]
          tokenStore = (Returned tt, s') ∧
        is_Some (UserToNextBatch s') ∧
        ∀ userID,
          LoadNextBatch userID s' =
          default (LoadNextBatch userID tokenStore)
            (lastSaved userID
               [(bot, "s1"); ("@other:example.org", "t1"); (bot, "s2")]).
Proof.
  apply saveNextBatches_loads_last. eexists. reflexivity.
Defined.

Lemma FilterStore_save_load_witness :
  ∃ s', SaveFilter bot "f1" filterStore = (Returned tt, s') ∧
        LoadFilter bot s' = "f1" ∧
        (∀ other, other ≠ bot → LoadFilter other s' = LoadFilter other filterStore) ∧
        (∀ u u', GetFilterJSON u s' = GetFilterJSON u' filterStore).
Proof.
  apply FilterStore_save_load. eexists. reflexivity.
Defined.

Lemma notifyListeners_all_return_witness :
  notifyListeners (messageEvent "hi") botMachine =
    (Returned tt,
     {| syncer := syncer botMachine; heap := heap botMachine;
        world := runListeners
                   (default [] (listeners (syncer botMachine)
                                  !! Type_ (messageEvent "hi")))
                   (messageEvent "hi") (world botMachine);
        calls := calls botMachine ++
                 ((λ fn, (fn, messageEvent "hi")) <$>
                    default [] (listeners (syncer botMachine)
                                  !! Type_ (messageEvent "hi"))) |}) ∧
  (default [] (listeners (syncer botMachine) !! Type_ (messageEvent "hi")) = [] →
   notifyListeners (messageEvent "hi") botMachine = (Returned tt, botMachine)).
Proof.
  apply notifyListeners_all_return.
  intros fn w Hfn.
  change (fn ∈ [logger "first"; logger "second"]) in Hfn.
  apply elem_of_cons in Hfn as [->|Hfn]; [reflexivity|].
  apply elem_of_cons in Hfn as [->|Hfn]; [reflexivity|].
  by apply elem_of_nil in Hfn.
Defined.

Lemma notifyListeners_stops_at_panic_witness :
  notifyListeners (messageEvent "hi") faultyMiddleMachine =
    (Panicked "boom",
     {| syncer := syncer faultyMiddleMachine; heap := heap faultyMiddleMachine;
        world := snd (faulty (messageEvent "hi")
                        (runListeners [logger "first"] (messageEvent "hi")
                           (world faultyMiddleMachine)));
        calls := calls faultyMiddleMachine ++
                 ((λ g, (g, messageEvent "hi")) <$> ([logger "first"] ++ [faulty])) |}).
Proof.
  apply (notifyListeners_stops_at_panic (messageEvent "hi") faultyMiddleMachine
           [logger "first"] [logger "late"] faulty "boom").
  - vm_compute. reflexivity.
  - intros g w [->|[]%elem_of_nil]%elem_of_cons. reflexivity.
  - reflexivity.
Defined.

Lemma getOrCreateRoom_idempotent_witness :
  ∃ m1,
    getOrCreateRoom room1 botMachine = (Returned room1, m1) ∧
    lookupRoom (syncer m1) room1
      = Some (default (NewRoom room1) (lookupRoom (syncer botMachine) room1)) ∧
    (∀ j, j ≠ room1 → lookupRoom (syncer m1) j = lookupRoom (syncer botMachine) j) ∧
    world m1 = world botMachine ∧ calls m1 = calls botMachine ∧
    heap m1 = heap botMachine ∧
    listeners (syncer m1) = listeners (syncer botMachine) ∧
    UserID (syncer m1) = UserID (syncer botMachine) ∧
    getOrCreateRoom room1 m1 = (Returned room1, m1).
Proof.
  apply getOrCreateRoom_idempotent. eexists. reflexivity.
Defined.

Lemma ProcessResponse_touches_only_named_rooms_witness :
  lookupRoom (syncer (machine (ProcessResponse "stack" oneRoom
                                 (Some plainResponse) "s1" botMachine))) room2
    = lookupRoom (syncer botMachine) room2 ∧
  ∀ key,
    stateOf (machine (ProcessResponse "stack" oneRoom (Some plainResponse) "s1"
                        botMachine)) room2 key
      = stateOf botMachine room2 key.
Proof.
  apply ProcessResponse_touches_only_named_rooms.
  - vm_compute. reflexivity.
  - vm_compute. reflexivity.
Defined.

Lemma quiet_botMachine : quiet (listeners (syncer botMachine)).
Proof.
  intros t fns fn e w Hfns Hfn.
  apply (elem_of_map_to_list (listeners (syncer botMachine))) in Hfns.
  vm_compute in Hfns.
  apply elem_of_cons in Hfns as [[= -> ->]|Hfns].
  { apply elem_of_cons in Hfn as [->|Hfn]; [done|].
    apply elem_of_cons in Hfn as [->|Hfn]; [done|]. by apply elem_of_nil in Hfn. }
  apply elem_of_cons in Hfns as [[= -> ->]|Hfns]; [|by apply elem_of_nil in Hfns].
  apply elem_of_cons in Hfn as [->|Hfn]; [done|]. by apply elem_of_nil in Hfn.
Qed.

Lemma ProcessResponse_no_fault_witness :
  result (ProcessResponse "stack" oneRoom (Some plainResponse) "s1" botMachine)
    = Returned None ∧
  (("s1" : string) ≠ "" →
   ∃ r',
     response (ProcessResponse "stack" oneRoom (Some plainResponse) "s1"
                 botMachine) = Some r' ∧
     calls (machine (ProcessResponse "stack" oneRoom (Some plainResponse) "s1"
                       botMachine)) =
       calls botMachine ++ responsePlan (listeners (syncer botMachine)) oneRoom r').
Proof.
  apply ProcessResponse_no_fault.
  - eexists. reflexivity.
  - exact quiet_botMachine.
Defined.

Lemma ProcessResponse_nil_table_witness :
  ∃ r',
    response (ProcessResponse "stack" oneRoom (Some plainResponse) "s1"
                nilTableMachine) = Some r' ∧
    machine (ProcessResponse "stack" oneRoom (Some plainResponse) "s1"
               nilTableMachine) = nilTableMachine ∧
    result (ProcessResponse "stack" oneRoom (Some plainResponse) "s1"
              nilTableMachine) =
      if hasTurn (Join r') (joinOrder oneRoom) ||
         hasTurn (Invite r') (inviteOrder oneRoom)
      then Returned (Some (panicError "stack" (UserID (syncer nilTableMachine))
                             "s1" nilMapAssignment))
      else Returned None.
Proof.
  apply ProcessResponse_nil_table.
  - reflexivity.
  - discriminate.
Defined.

(** The table after [invitedResponse]; and what the name pair of [room1]
    reads after [renamedResponse]: the topic event. *)
Lemma ProcessResponse_table_witness :
  ((∀ k key,
      stateOf (machine (ProcessResponse "stack" invitedSchedule
                          (Some invitedResponse) "s1" botMachine)) k key
        = aliasedState invitedResponse k key (stateOf botMachine k key)) ∧
   (∀ k,
      is_Some (lookupRoom
                 (syncer (machine (ProcessResponse "stack" invitedSchedule
                                     (Some invitedResponse) "s1" botMachine)))
                 k) ↔
      is_Some (lookupRoom (syncer botMachine) k) ∨
      is_Some (Join invitedResponse !! k) ∨
      is_Some (Invite invitedResponse !! k)) ∧
   (∀ k room',
      lookupRoom (syncer (machine (ProcessResponse "stack" invitedSchedule
                                     (Some invitedResponse) "s1" botMachine)))
        k = Some room' →
      ID room' = ID (default (NewRoom k) (lookupRoom (syncer botMachine) k))) ∧
   (∀ k (roomData : JoinedRoom) (e final : Event),
      Join invitedResponse !! k = Some roomData →
      Invite invitedResponse !! k = None →
      e ∈ StateEvents roomData →
      last (StateEvents roomData) = Some final →
      stateOf (machine (ProcessResponse "stack" invitedSchedule
                          (Some invitedResponse) "s1" botMachine)) k
        (keyOf e) = Some (setRoomID k final)) ∧
   (∀ k (roomData : InvitedRoom) (e final : Event),
      Invite invitedResponse !! k = Some roomData →
      e ∈ InviteStateEvents roomData →
      last (InviteStateEvents roomData) = Some final →
      stateOf (machine (ProcessResponse "stack" invitedSchedule
                          (Some invitedResponse) "s1" botMachine)) k
        (keyOf e) = Some (setRoomID k final))) ∧
  aliasedState renamedResponse room1 ("m.room.name", "") None =
    Some (setRoomID room1 (topicEvent "News")).
Proof.
  split.
  - apply (ProcessResponse_table "stack" invitedSchedule invitedResponse "s1"
             botMachine invitedResponse).
    + discriminate.
    + vm_compute. reflexivity.
    + vm_compute. reflexivity.
    + vm_compute. reflexivity.
    + vm_compute. reflexivity.
  - vm_compute. reflexivity.
Defined.


(** The invited room is created with the state of its invited entry; the
    message listeners are not called for it. *)
Example invited_scenario :
  let out := ProcessResponse "stack" invitedSchedule (Some invitedResponse) "s1"
               botMachine in
  result out = Returned None ∧
  stateOf (machine out) room2 ("m.room.name", "") =
    Some (setRoomID room2 (nameEvent "Invite")) ∧
  world (machine out) =
    ["first m.room.name !r:example.org"; "first m.room.name !r:example.org";
     "first m.room.message !r:example.org";
     "second m.room.message !r:example.org";
     "first m.room.name !s:example.org"].
Proof. vm_compute. repeat split; reflexivity. Qed.

(** The same response twice: the second call declares new loop variables,
    so the room holds another address than after the first call, and reads
    the same event. *)
Example replay_scenario :
  let out1 := ProcessResponse "stack" oneRoom (Some renamedResponse) "s1"
                botMachine in
  let out2 := ProcessResponse "stack" oneRoom (Some renamedResponse) "s1"
                (machine out1) in
  (lookupRoom (syncer (machine out1)) room1 ≫= λ room,
     State room !! ("m.room.name", "")) = Some 0 ∧
  (lookupRoom (syncer (machine out2)) room1 ≫= λ room,
     State room !! ("m.room.name", "")) = Some 2 ∧
  stateOf (machine out1) room1 ("m.room.name", "") =
    Some (setRoomID room1 (topicEvent "News")) ∧
  stateOf (machine out2) room1 ("m.room.name", "") =
    Some (setRoomID room1 (topicEvent "News")).
Proof.
  intros out1 out2. unfold out2, out1.
  repeat split; vm_compute; reflexivity.
Qed.
